(** * A shallow embedding of the moego state-graph engine (package core)

    Sources: [pkg/core/stream.go] (Streamer), the InterruptManager file
    (InterruptManager, InterruptError, the [Interrupt] helper) and the
    StateGraph file (StateGraph, RunnableState.Invoke).

    Modelling choices:
    - The state type [T], the interrupt payload type ([interface{}]) and the
      state of everything outside the engine (closures inside step functions
      and routers, the party that reads the interrupt channel and calls
      [Resume]) are type parameters: [State], [Data] and [E].
    - [json.Marshal] is a per-type function that may fail ([Marshal]).
    - The interrupt manager's fields and every send on a channel live in an
      explicit [World] threaded through a state monad; sends are appended
      to [log] (a reader is assumed to drain every channel).
    - Step functions and routers are state-passing functions over [E].
    - RunID and Timestamp of events (wall-clock strings) are not modelled.
    - Go's [for { ... }] loop is iterated with fuel; [OutOfFuel] only
      means the budget of iterations was spent. *)

From Stdlib Require Import ZArith Bool.
From stdpp Require Import base gmap sets strings list pretty.

Open Scope Z_scope.

(** ** Stream modes and events (stream.go) *)

Inductive StreamMode :=
  | StreamValues | StreamUpdates | StreamCustom | StreamMessages | StreamDebug.

#[global] Instance StreamMode_eq_dec : EqDecision StreamMode.
Proof. solve_decision. Defined.

Inductive EventType := EventChainStart | EventChainEnd | EventChainStream.

(** Values stored in [Event.Metadata] (a [map[string]interface{}]). *)
Inductive MetaValue := MInt (z : Z) | MString (s : string).

Record Event := {
  Type_ : EventType;
  Name : string;
  Metadata : list (string * MetaValue)
}.

(** [hasMode]: linear scan of the configured modes. *)
Fixpoint hasMode (modes : list StreamMode) (mode : StreamMode) : bool :=
  match modes with
  | [] => false
  | m :: ms => if decide (m = mode) then true else hasMode ms mode
  end.

(** [DefaultStreamConfig().Modes]. *)
Definition DefaultStreamModes : list StreamMode := [StreamValues].

(** ** Errors *)

(** [json.Marshal] for one Go type. *)
Class Marshal (A : Type) := marshal : A -> list Byte.byte + string.

(** [var zero T]. *)
Class Zero (A : Type) := zero : A.

(** The untyped [nil] of [interface{}]. *)
Class Nil (A : Type) := nil_value : A.

Section Engine.

Context {State Data E : Type}.
Context `{Zero State} `{Marshal State} `{Marshal Data} `{Nil Data}.

(** The [error] values step functions and routers return: an
    [*InterruptError] (detected by [IsInterruptError]) or any other error. *)
Inductive error :=
  | InterruptError (d : Data)
  | OtherError (msg : string).

(** [IsInterruptError]: a type assertion on [*InterruptError]. *)
Definition IsInterruptError (err : error) : bool :=
  match err with InterruptError _ => true | OtherError _ => false end.

(** [GetInterruptData]. *)
Definition GetInterruptData (err : error) : Data * bool :=
  match err with InterruptError d => (d, true) | OtherError _ => (nil_value, false) end.

(** [Interrupt] helper for step functions:
    [var zero T; return zero, &InterruptError{Data: data}]. *)
Definition Interrupt (data : Data) : State * option error :=
  (zero, Some (InterruptError data)).

(** The non-nil errors [Invoke] returns, one per [fmt.Errorf] site. *)
Inductive invoke_error :=
  | ErrRecursionLimit (limit : Z)            (* "recursion limit (%d) exceeded" *)
  | ErrTriggeringBreakpoint (cause : error)  (* "error triggering breakpoint: %w" *)
  | ErrWaitingForResume (cause : error)      (* "error waiting for resume: %w" *)
  | ErrNodeNotFound (name : string)          (* "%w: %s", ErrNodeNotFound *)
  | ErrTriggeringInterrupt (cause : error)   (* "error triggering interrupt: %w" *)
  | ErrInNode (name : string) (cause : error)  (* "error in node %s: %w" *)
  | ErrInRouter (name : string) (cause : error) (* "error in router for node %s: %w" *)
  | ErrInvalidRouterOutput                   (* "%w: router returned no nodes" *)
  | ErrNoOutgoingEdge (name : string).       (* "%w: %s", ErrNoOutgoingEdge *)

(** ** Data model *)

Record StateNode := {
  NodeName_ : string;
  Function : E -> State -> E * (State * option error)
}.

Record ConditionalEdge := {
  From : string;
  Router : E -> State -> E * (list string * option error);
  Mapping : option (gmap string string)   (* [None] is a nil map *)
}.

Record StateGraph := {
  nodes : gmap string StateNode;
  edges : list ConditionalEdge;
  entryPoint : string;
  recursionLimit : Z;
  streamModes : list StreamMode   (* the modes of [g.streamer] *)
}.

Record InterruptInfo := {
  NodeName : string;
  InfoData : list Byte.byte;
  InfoState : list Byte.byte
}.

Record StreamEvent := { Mode : StreamMode; SData : State }.

(** Everything the engine sends or calls, in order. *)
Inductive item :=
  | IStream (se : StreamEvent)          (* send on streamer.streamCh *)
  | IEvent (ev : Event)                 (* send on streamer.eventCh *)
  | IInterrupt (info : InterruptInfo)   (* send on interruptManager.interruptCh *)
  | ICallNode (name : string) (input : State)    (* node.Function(ctx, state) *)
  | ICallRouter (from : string) (input : State). (* edge.Router(state) *)

(** The fields of [InterruptManager] (the channels are the [log]). *)
Record IM := { interrupted : bool; breakpoints : gset string }.

Record World := { env : E; im : IM; log : list item }.

(** What the reader of the interrupt channel does while [WaitForResume]
    blocks: breakpoint changes, then [Resume(state)] or the cancellation
    of [ctx]. *)
Inductive bp_op := AddBp (n : string) | RemoveBp (n : string).
Inductive resume_action := DoResume (s : State) | CtxDone (msg : string).

Record Controller := {
  on_interrupt : E -> InterruptInfo -> E;           (* receives the info *)
  on_wait : E -> E * list bp_op * resume_action
}.


(** ** A state monad over [World] *)

Definition st (A : Type) := World -> A * World.
Definition ret {A} (a : A) : st A := fun w => (a, w).
Definition bind {A B} (m : st A) (k : A -> st B) : st B :=
  fun w => let '(a, w1) := m w in k a w1.

Notation "'let*' x ':=' m 'in' k" := (bind m (fun x => k))
  (at level 200, x name, m at level 100, k at level 200).

Definition set_env (e : E) (w : World) : World := {| env := e; im := im w; log := log w |}.
Definition set_im (m : IM) (w : World) : World := {| env := env w; im := m; log := log w |}.
Definition send (i : item) : st unit :=
  fun w => (tt, {| env := env w; im := im w; log := log w ++ [i] |}).

(** ** Streamer *)

(** [EmitEvent] is gated on [StreamDebug]. *)
Definition EmitEvent (modes : list StreamMode) (evt : Event) : st unit :=
  if hasMode modes StreamDebug then send (IEvent evt) else ret tt.

Definition EmitValue (modes : list StreamMode) (s : State) : st unit :=
  if hasMode modes StreamValues
  then send (IStream {| Mode := StreamValues; SData := s |}) else ret tt.

Definition EmitUpdate (modes : list StreamMode) (s : State) : st unit :=
  if hasMode modes StreamUpdates
  then send (IStream {| Mode := StreamUpdates; SData := s |}) else ret tt.

(** ** InterruptManager *)

Definition AddBreakpoint (n : string) (m : IM) : IM :=
  {| interrupted := interrupted m; breakpoints := {[ n ]} ∪ breakpoints m |}.

Definition RemoveBreakpoint (n : string) (m : IM) : IM :=
  {| interrupted := interrupted m; breakpoints := breakpoints m ∖ {[ n ]} |}.

Definition HasBreakpoint (n : string) (m : IM) : bool :=
  bool_decide (n ∈ breakpoints m).

Definition apply_bp_op (m : IM) (o : bp_op) : IM :=
  match o with AddBp n => AddBreakpoint n m | RemoveBp n => RemoveBreakpoint n m end.

(** [InterruptManager.Interrupt]: the flag is checked and set under the
    lock, then data and state are marshalled, then the info is sent. *)
Definition InterruptManager_Interrupt (ctl : Controller) (nodeName : string)
    (data : Data) (state : State) : st (option (error)) :=
  fun w =>
    if interrupted (im w) then (Some (OtherError "already interrupted"), w)
    else
      let w1 := set_im {| interrupted := true; breakpoints := breakpoints (im w) |} w in
      match marshal data with
      | inr e => (Some (OtherError e), w1)
      | inl dataBytes =>
          match marshal state with
          | inr e => (Some (OtherError e), w1)
          | inl stateBytes =>
              let info := {| NodeName := nodeName; InfoData := dataBytes;
                             InfoState := stateBytes |} in
              let '(_, w2) := send (IInterrupt info) w1 in
              (None, set_env (on_interrupt ctl (env w2) info) w2)
          end
      end.

(** [InterruptManager.Resume]. *)
Definition InterruptManager_Resume (m : IM) : option (error) * IM :=
  if interrupted m
  then (None, {| interrupted := false; breakpoints := breakpoints m |})
  else (Some (OtherError "not interrupted"), m).

(** Outcome of [WaitForResume]: the state received on [resumeCh], the
    context's error, or no rendezvous at all ([Resume] refused). *)
Inductive wait_result := WResumed (s : State) | WError (e : error) | WBlocked.

(** [WaitForResume(ctx)] together with what the controller does meanwhile. *)
Definition WaitForResume (ctl : Controller) : st wait_result :=
  fun w =>
    let '(e1, ops, act) := on_wait ctl (env w) in
    let m1 := fold_left apply_bp_op ops (im w) in
    let w1 := set_im m1 (set_env e1 w) in
    match act with
    | CtxDone msg => (WError (OtherError msg), w1)
    | DoResume s =>
        match InterruptManager_Resume m1 with
        | (None, m2) => (WResumed s, set_im m2 w1)
        | (Some _, _) => (WBlocked, w1)
        end
    end.

(** ** RunnableState.Invoke *)

(** The mapping block: [mappedNodes] built name by name, names absent from
    the map kept as they are. A nil map leaves [nextNodes] as it is. *)
Definition apply_mapping (mapping : option (gmap string string))
    (nextNodes : list string) : list string :=
  match mapping with
  | None => nextNodes
  | Some mp =>
      map (fun node => match mp !! node with Some mapped => mapped | None => node end)
        nextNodes
  end.

(** The [for _, edge := range r.graph.edges] loop: the first edge whose
    [From] is [currentNode] runs its router, then [break]. [None] is
    [foundNext == false]. *)
Fixpoint route (es : list ConditionalEdge) (currentNode : string) (state : State)
    : st (option (string + invoke_error)) :=
  match es with
  | [] => ret None
  | edge :: es' =>
      if String.eqb (From edge) currentNode then
        let* _ := send (ICallRouter currentNode state) in
        fun w =>
          let '(e1, (nextNodes, rerr)) := Router edge (env w) state in
          let w1 := set_env e1 w in
          match rerr with
          | Some err => (Some (inr (ErrInRouter currentNode err)), w1)
          | None =>
              match nextNodes with
              | [] => (Some (inr ErrInvalidRouterOutput), w1)
              | n0 :: _ =>
                  let nextNodes' := apply_mapping (Mapping edge) nextNodes in
                  (* [nextNodes[0]]; the mapping keeps the length *)
                  let next := match nextNodes' with x :: _ => x | [] => n0 end in
                  (Some (inl next), w1)
              end
          end
      else route es' currentNode state
  end.

(** Loop variables of [Invoke]: [currentNode], [steps], [state]. *)
Record config := { currentNode : string; steps : Z; cstate : State }.

Inductive outcome :=
  | Continue (c : config)              (* next iteration of the [for] loop *)
  | Break (s : State)                  (* [break] at [END] *)
  | Return (s : State) (e : option invoke_error)  (* [return] inside the loop *)
  | Stuck.                             (* blocked on a rendezvous forever *)

Definition node_event (ty : EventType) (n : string) (steps : Z) : Event :=
  {| Type_ := ty; Name := n;
     Metadata := [("langgraph_step", MInt steps); ("langgraph_node", MString n)] |}.

Section Loop.
Variable END : string.
Variable ctl : Controller.
Variable g : StateGraph.

(** Lines 195-208: the breakpoint check; [inl] is the (possibly resumed)
    state, [inr] an early return. *)
Definition check_breakpoint (cur : string) (state : State)
    : st (State + outcome) :=
  fun w =>
    if HasBreakpoint cur (im w) then
      let '(ierr, w1) := InterruptManager_Interrupt ctl cur nil_value state w in
      match ierr with
      | Some err => (inr (Return zero (Some (ErrTriggeringBreakpoint err))), w1)
      | None =>
          let '(r, w2) := WaitForResume ctl w1 in
          match r with
          | WResumed s => (inl s, w2)
          | WError err => (inr (Return zero (Some (ErrWaitingForResume err))), w2)
          | WBlocked => (inr Stuck, w2)
          end
      end
    else (inl state, w).

(** Calling [node.Function(ctx, state)]. *)
Definition call_node (cur : string) (node : StateNode) (state : State)
    : st (State * option error) :=
  let* _ := send (ICallNode cur state) in
  fun w => let '(e1, r) := Function node (env w) state in (r, set_env e1 w).

(** Lines 228-305, after [node.Function] returned: the interrupt path,
    the failure path, or the end event, the update and the routing. *)
Definition after_call (cur : string) (steps : Z) (r : State * option error)
    : st outcome :=
  (* [state, err = node.Function(ctx, state)] *)
  let '(state, err) := r in
  match err with
  | Some err =>
      if IsInterruptError err then
        let '(data, _) := GetInterruptData err in
        let* ierr := InterruptManager_Interrupt ctl cur data state in
        match ierr with
        | Some err' => ret (Return zero (Some (ErrTriggeringInterrupt err')))
        | None =>
            let* wr := WaitForResume ctl in
            match wr with
            | WResumed s =>
                (* [continue]: same node, [steps] not incremented *)
                ret (Continue {| currentNode := cur; steps := steps; cstate := s |})
            | WError err' => ret (Return zero (Some (ErrWaitingForResume err')))
            | WBlocked => ret Stuck
            end
        end
      else ret (Return zero (Some (ErrInNode cur err)))
  | None =>
      let* _ := EmitEvent (streamModes g) (node_event EventChainEnd cur steps) in
      let* _ := EmitUpdate (streamModes g) state in
      let* nx := route (edges g) cur state in
      match nx with
      | None => ret (Return zero (Some (ErrNoOutgoingEdge cur)))
      | Some (inr err) => ret (Return zero (Some err))
      | Some (inl next) =>
          ret (Continue {| currentNode := next; steps := steps + 1; cstate := state |})
      end
  end.

(** One iteration of the [for] loop of [Invoke] (lines 185-305). *)
Definition loop_body (c : config) : st outcome :=
  let cur := currentNode c in
  let steps := steps c in
  if Z.leb (recursionLimit g) steps then
    ret (Return zero (Some (ErrRecursionLimit (recursionLimit g))))
  else if String.eqb cur END then ret (Break (cstate c))
  else
    let* b := check_breakpoint cur (cstate c) in
    match b with
    | inr o => ret o
    | inl state =>
        match nodes g !! cur with
        | None => ret (Return zero (Some (ErrNodeNotFound cur)))
        | Some node =>
            let* _ := EmitEvent (streamModes g) (node_event EventChainStart cur steps) in
            let* r := call_node cur node state in
            after_call cur steps r
        end
    end.

Inductive loop_result :=
  | LBreak (s : State) | LReturn (s : State) (e : option invoke_error)
  | LStuck | LOutOfFuel.

Fixpoint run_loop (fuel : nat) (c : config) : st loop_result :=
  match fuel with
  | O => ret LOutOfFuel
  | S fuel' =>
      let* o := loop_body c in
      match o with
      | Continue c' => run_loop fuel' c'
      | Break s => ret (LBreak s)
      | Return s e => ret (LReturn s e)
      | Stuck => ret LStuck
      end
  end.

Inductive invoke_result :=
  | Returned (s : State) (e : option invoke_error)
  | Blocked
  | OutOfFuel.

Definition graph_event (ty : EventType) : Event :=
  {| Type_ := ty; Name := "LangGraph"; Metadata := [] |}.

(** [RunnableState.Invoke(ctx, state)], at most [fuel] loop iterations. *)
Definition Invoke (fuel : nat) (state : State) : st invoke_result :=
  let* _ := EmitValue (streamModes g) state in
  let* _ := EmitEvent (streamModes g) (graph_event EventChainStart) in
  let* r := run_loop fuel {| currentNode := entryPoint g; steps := 0; cstate := state |} in
  match r with
  | LBreak s =>
      let* _ := EmitValue (streamModes g) s in
      let* _ := EmitEvent (streamModes g) (graph_event EventChainEnd) in
      ret (Returned s None)
  | LReturn s e => ret (Returned s e)
  | LStuck => ret Blocked
  | LOutOfFuel => ret OutOfFuel
  end.

End Loop.

(** ** Building a graph *)

Definition with_nodes (g : StateGraph) (ns : gmap string StateNode) : StateGraph :=
  {| nodes := ns; edges := edges g; entryPoint := entryPoint g;
     recursionLimit := recursionLimit g; streamModes := streamModes g |}.

(** [NewStateGraph]: default recursion limit 25, default stream modes. *)
Definition NewStateGraph : StateGraph :=
  {| nodes := ∅; edges := []; entryPoint := ""; recursionLimit := 25;
     streamModes := DefaultStreamModes |}.

Definition AddNode (g : StateGraph) (name : string)
    (fn : E -> State -> E * (State * option error)) : StateGraph :=
  with_nodes g (<[ name := {| NodeName_ := name; Function := fn |} ]> (nodes g)).

Definition AddConditionalEdges (g : StateGraph) (from : string)
    (router : E -> State -> E * (list string * option error))
    (mapping : option (gmap string string)) : StateGraph :=
  {| nodes := nodes g;
     edges := edges g ++ [{| From := from; Router := router; Mapping := mapping |}];
     entryPoint := entryPoint g; recursionLimit := recursionLimit g;
     streamModes := streamModes g |}.

Definition SetEntryPoint (g : StateGraph) (name : string) : StateGraph :=
  {| nodes := nodes g; edges := edges g; entryPoint := name;
     recursionLimit := recursionLimit g; streamModes := streamModes g |}.

Definition SetRecursionLimit (g : StateGraph) (limit : Z) : StateGraph :=
  {| nodes := nodes g; edges := edges g; entryPoint := entryPoint g;
     recursionLimit := limit; streamModes := streamModes g |}.

(** [SetStreamConfig]: a fresh streamer with the given modes. *)
Definition SetStreamConfig (g : StateGraph) (modes : list StreamMode) : StateGraph :=
  {| nodes := nodes g; edges := edges g; entryPoint := entryPoint g;
     recursionLimit := recursionLimit g; streamModes := modes |}.

Inductive compile_error := ErrEntryPointNotSet.

(** [Compile]: the [RunnableState] only wraps the graph. *)
Definition Compile (g : StateGraph) : StateGraph + compile_error :=
  if String.eqb (entryPoint g) "" then inr ErrEntryPointNotSet else inl g.

(** Items that record a call of user code. *)
Definition is_call (i : item) : bool :=
  match i with ICallNode _ _ | ICallRouter _ _ => true | _ => false end.

Definition is_interrupt (i : item) : bool :=
  match i with IInterrupt _ => true | _ => false end.

Definition values_item (modes : list StreamMode) (s : State) : list item :=
  if hasMode modes StreamValues then [IStream {| Mode := StreamValues; SData := s |}] else [].

Definition event_item (modes : list StreamMode) (ev : Event) : list item :=
  if hasMode modes StreamDebug then [IEvent ev] else [].

Definition update_item (modes : list StreamMode) (s : State) : list item :=
  if hasMode modes StreamUpdates then [IStream {| Mode := StreamUpdates; SData := s |}] else [].

Definition append_log (w : World) (l : list item) : World :=
  {| env := env w; im := im w; log := log w ++ l |}.

(** The spec's reading of an edge's [mapping]: a name with an entry is
    replaced by it, a name absent from the mapping passes through
    unchanged, a nil mapping changes nothing. *)
Definition translate (mapping : option (gmap string string)) (n : string) : string :=
  match mapping with None => n | Some mp => default n (mp !! n) end.

Definition extends (w w' : World) : Prop := exists l, log w' = log w ++ l.

Definition is_node_call (i : item) : bool :=
  match i with ICallNode _ _ => true | _ => false end.

Definition is_router_call (i : item) : bool :=
  match i with ICallRouter _ _ => true | _ => false end.

Fixpoint count_items (p : item -> bool) (l : list item) : nat :=
  match l with
  | [] => 0%nat
  | i :: l' => ((if p i then 1 else 0) + count_items p l')%nat
  end.

(** A send that the streamer's mode check lets through: a [StreamValues]
    or [StreamUpdates] event with its mode active, or a debug event with
    [StreamDebug] active; the other items are not stream sends. *)
Definition stream_gated (modes : list StreamMode) (i : item) : bool :=
  match i with
  | IStream se =>
      match Mode se with
      | StreamValues | StreamUpdates => hasMode modes (Mode se)
      | _ => false
      end
  | IEvent _ => hasMode modes StreamDebug
  | _ => true
  end.


End Engine.

Arguments error : clear implicits.
Arguments invoke_error : clear implicits.
Arguments StateNode : clear implicits.
Arguments ConditionalEdge : clear implicits.
Arguments StateGraph : clear implicits.
Arguments World : clear implicits.
Arguments Controller : clear implicits.
Arguments config : clear implicits.
Arguments item : clear implicits.
Arguments resume_action : clear implicits.

(** ** A concrete instance: the calculator state of the examples *)

Module Calc.

Record CalcState := { Result : Z }.

(** The [interface{}] payloads used below: nil, a string, a channel
    (which [json.Marshal] rejects). *)
Inductive GoValue := VNil | VString (s : string) | VChan.

Definition bytes (s : string) : list Byte.byte := String.list_byte_of_string s.

#[export] Instance CalcState_zero : Zero CalcState := {| Result := 0 |}.

(** [{"result":n}] *)
#[export] Instance CalcState_marshal : Marshal CalcState := fun s =>
  inl (bytes "{" ++ [Byte.x22] ++ bytes "result" ++ [Byte.x22] ++
       bytes (":" +:+ pretty (Result s) +:+ "}")).

#[export] Instance GoValue_nil : Nil GoValue := VNil.

#[export] Instance GoValue_marshal : Marshal GoValue := fun v =>
  match v with
  | VNil => inl (bytes "null")
  | VString s => inl ([Byte.x22] ++ bytes s ++ [Byte.x22])
  | VChan => inr "json: unsupported type: chan int"
  end.

(** The closures' state ([E]) is a call counter. *)
Abbreviation Node := (StateNode CalcState GoValue nat).
Abbreviation Graph := (StateGraph CalcState GoValue nat).
Abbreviation Ctl := (Controller CalcState nat).
Abbreviation W := (World CalcState nat).

Definition END : string := "__end__".

Definition w0 : W :=
  {| env := 0%nat; im := {| interrupted := false; breakpoints := ∅ |}; log := [] |}.

(** A controller that answers every interrupt with [Resume(r)]. *)
Definition resume_with (r : CalcState) : Ctl :=
  {| on_interrupt := fun e _ => e; on_wait := fun e => (e, [], DoResume r) |}.

Definition to_end (END : string) :
    nat -> CalcState -> nat * (list string * option (error GoValue)) :=
  fun e _ => (e, ([END], None)).

(** A node asking for approval through the [Interrupt] helper. *)
Definition ask_fn : nat -> CalcState -> nat * (CalcState * option (error GoValue)) :=
  fun e _ => (e, Interrupt (VString "approve")).

Definition g_ask : Graph :=
  AddConditionalEdges (SetEntryPoint (AddNode NewStateGraph "ask" ask_fn) "ask")
    "ask" (to_end END) None.

(** A node that interrupts on its first call and completes afterwards. *)
Definition approve_fn : nat -> CalcState -> nat * (CalcState * option (error GoValue)) :=
  fun e s => if Nat.eqb e 0 then (1%nat, Interrupt (VString "approve"))
             else (e, ({| Result := 55 |}, None)).

Definition approve_node : Node := {| NodeName_ := "ask"; Function := approve_fn |}.

Definition g_approve : Graph :=
  AddConditionalEdges (SetEntryPoint (AddNode NewStateGraph "ask" approve_fn) "ask")
    "ask" (to_end END) None.

(** Scenario A: [calc -> END], entry [calc], the node sets [Result = 55]. *)
Definition calc_fn : nat -> CalcState -> nat * (CalcState * option (error GoValue)) :=
  fun e _ => (e, ({| Result := 55 |}, None)).

Definition scenarioA (END : string) (modes : list StreamMode) : Graph :=
  AddConditionalEdges
    (SetStreamConfig (SetEntryPoint (AddNode NewStateGraph "calc" calc_fn) "calc") modes)
    "calc" (to_end END) None.

Definition count_mode (m : StreamMode) (l : list (item CalcState)) : nat :=
  length (List.filter (fun i => match i with IStream se => bool_decide (Mode se = m) | _ => false end) l).

(** The data of the stream events of mode [m], in the order they were sent. *)
Definition stream_data (m : StreamMode) (l : list (item CalcState)) : list CalcState :=
  List.flat_map (fun i => match i with
                          | IStream se => if bool_decide (Mode se = m) then [SData se] else []
                          | _ => []
                          end) l.

(** The bytes of a successful [json.Marshal]. *)
Definition json (r : list Byte.byte + string) : list Byte.byte :=
  match r with inl b => b | inr _ => [] end.

Definition g_end : Graph := SetEntryPoint NewStateGraph END.
Definition g_end_quiet : Graph := SetStreamConfig g_end [].
Definition g_zero_limit : Graph := SetRecursionLimit g_approve 0.
Definition g_missing : Graph := SetEntryPoint NewStateGraph "x".

Definition w_bp : W :=
  {| env := 0%nat; im := {| interrupted := false; breakpoints := {[ "ask" ]} |}; log := [] |}.

Definition edge_b : ConditionalEdge CalcState GoValue nat :=
  {| From := "b"; Router := to_end END; Mapping := None |}.
Definition edge_a1 : ConditionalEdge CalcState GoValue nat :=
  {| From := "a"; Router := fun e _ => (e, (["x"; "z"], None)); Mapping := Some {[ "x" := "y" ]} |}.
Definition edge_a2 : ConditionalEdge CalcState GoValue nat :=
  {| From := "a"; Router := fun e _ => (e, (["q"], None)); Mapping := None |}.

(** A node that fails with an ordinary error. *)
Definition fail_fn : nat -> CalcState -> nat * (CalcState * option (error GoValue)) :=
  fun e _ => (e, ({| Result := 0 |}, Some (OtherError "boom"))).

Definition g_fail : Graph := SetEntryPoint (AddNode NewStateGraph "calc" fail_fn) "calc".

(** [calc] registered but given no outgoing edge. *)
Definition g_noedge : Graph := SetEntryPoint (AddNode NewStateGraph "calc" calc_fn) "calc".

(** [calc] routed back to itself, with recursion limit 3. *)
Definition self_router : nat -> CalcState -> nat * (list string * option (error GoValue)) :=
  fun e _ => (e, (["calc"], None)).

Definition edge_self : ConditionalEdge CalcState GoValue nat :=
  {| From := "calc"; Router := self_router; Mapping := None |}.

Definition g_self : Graph :=
  SetRecursionLimit (AddConditionalEdges g_noedge "calc" self_router None) 3.

(** [calc] routed back to itself through a mapping ("again" -> "calc"),
    after an edge from [b], with recursion limit 3. *)
Definition edge_self_mapped : ConditionalEdge CalcState GoValue nat :=
  {| From := "calc"; Router := fun e _ => (e, (["again"; "other"], None));
     Mapping := Some {[ "again" := "calc" ]} |}.

Definition g_self_mapped : Graph :=
  {| nodes := nodes g_noedge; edges := [edge_b; edge_self_mapped]; entryPoint := "calc";
     recursionLimit := 3; streamModes := streamModes g_noedge |}.

(** A manager with a breakpoint on [calc]. *)
Definition w_bp_calc : W :=
  {| env := 0%nat; im := {| interrupted := false; breakpoints := {[ "calc" ]} |}; log := [] |}.

(** A reader whose context is cancelled while it waits. *)
Definition cancel_ctl : Ctl :=
  {| on_interrupt := fun e _ => e; on_wait := fun e => (e, [], CtxDone "context canceled") |}.

Definition edge_err : ConditionalEdge CalcState GoValue nat :=
  {| From := "a"; Router := fun e _ => (e, ([], Some (OtherError "bad"))); Mapping := None |}.

End Calc.

Section Properties.

Context {State Data E : Type}.
Context `{Zero State} `{Marshal State} `{Marshal Data} `{Nil Data}.

Implicit Types (w : World State E) (c : config State) (g : StateGraph State Data E)
  (ctl : Controller State E) (nd : StateNode State Data E) (m : IM)
  (modes : list StreamMode) (s : State) (i : item State)
  (es : list (ConditionalEdge State Data E)).

(** ** Properties *)

Lemma append_log_nil w : append_log w [] = w.
Proof. destruct w; unfold append_log; simpl; rewrite app_nil_r; reflexivity. Qed.

Lemma append_log_app w l1 l2 : append_log (append_log w l1) l2 = append_log w (l1 ++ l2).
Proof. unfold append_log; simpl; rewrite app_assoc; reflexivity. Qed.

Lemma EmitValue_eq modes s w : EmitValue modes s w = (tt, append_log w (values_item modes s)).
Proof.
  unfold EmitValue, values_item, send, ret.
  destruct (hasMode modes StreamValues); [reflexivity|]. by rewrite append_log_nil.
Qed.

Lemma EmitEvent_eq modes ev w : EmitEvent modes ev w = (tt, append_log w (event_item modes ev)).
Proof.
  unfold EmitEvent, event_item, send, ret.
  destruct (hasMode modes StreamDebug); [reflexivity|]. by rewrite append_log_nil.
Qed.

Lemma EmitUpdate_eq modes s w : EmitUpdate modes s w = (tt, append_log w (update_item modes s)).
Proof.
  unfold EmitUpdate, update_item, send, ret.
  destruct (hasMode modes StreamUpdates); [reflexivity|]. by rewrite append_log_nil.
Qed.

Lemma send_eq i w : send i w = (tt, append_log w [i]).
Proof. reflexivity. Qed.

Ltac emits :=
  repeat first [ rewrite EmitValue_eq | rewrite EmitEvent_eq | rewrite EmitUpdate_eq
               | rewrite send_eq ]; cbn [fst snd].

(** Every [return] inside the loop hands back [zero] with a non-nil error. *)
Lemma after_call_Return ctl g cur steps r w s e w' :
  after_call ctl g cur steps r w = (Return s e, w') -> s = zero /\ is_Some e.
Proof.
  unfold after_call, bind, ret. destruct r as [st1 [err|]].
  - destruct (IsInterruptError err); [|intros [= <- <- _]; eauto].
    destruct (GetInterruptData err) as [data ?].
    destruct (InterruptManager_Interrupt _ _ _ _ _) as [[ierr|] w3];
      [intros [= <- <- _]; eauto|].
    destruct (WaitForResume _ _) as [[r'|err'|] w4];
      [discriminate|intros [= <- <- _]; eauto|discriminate].
  - emits. destruct (route _ _ _ _) as [[[next|err']|] w3];
      [discriminate|intros [= <- <- _]; eauto|intros [= <- <- _]; eauto].
Qed.

(** Every [return] inside the loop hands back [zero] with a non-nil error. *)
Lemma loop_body_Return END ctl g c w s e w' :
  loop_body END ctl g c w = (Return s e, w') -> s = zero /\ is_Some e.
Proof.
  unfold loop_body, bind, ret.
  destruct (Z.leb _ _); [intros [= <- <- _]; eauto|].
  destruct (String.eqb _ _); [discriminate|].
  destruct (check_breakpoint _ _ _ _) as [[x|o] w1] eqn:Hc.
  - destruct (nodes g !! _) as [nd|]; [|intros [= <- <- _]; eauto].
    rewrite EmitEvent_eq. unfold call_node, bind; rewrite send_eq.
    destruct (Function nd _ _) as [e1 r]. apply after_call_Return.
  - unfold check_breakpoint in Hc. destruct (HasBreakpoint _ _); [|discriminate].
    destruct (InterruptManager_Interrupt _ _ _ _ _) as [[ierr|] w2].
    { injection Hc as <- <-. intros [= <- <- _]; eauto. }
    destruct (WaitForResume _ _) as [[r|err|] w3]; [discriminate| |];
      injection Hc as <- <-; [intros [= <- <- _]; eauto|discriminate].
Qed.

Lemma run_loop_LReturn END ctl g fuel c w s e w' :
  run_loop END ctl g fuel c w = (LReturn s e, w') -> s = zero /\ is_Some e.
Proof.
  revert c w. induction fuel as [|fuel IH]; intros c w; simpl; [discriminate|].
  unfold bind, ret.
  destruct (loop_body END ctl g c w) as [o w1] eqn:Hb.
  destruct o as [c'|s'|s' e'|]; try discriminate.
  - apply IH.
  - intros [= <- <- _]. eapply loop_body_Return; eauto.
Qed.

(** C7: on every fatal path of the loop (recursion limit, node not found,
    no outgoing edge, invalid router output, router error, node failure,
    breakpoint, interrupt or resume failure) the loop returns the zero state
    with a non-nil error, and so does [Invoke] whenever its error is
    non-nil. *)
Theorem Invoke_fatal_returns_zero END ctl g :
  (forall c w s e w', loop_body END ctl g c w = (Return s e, w') ->
     s = zero /\ is_Some e) /\
  (forall fuel s w s' e w',
     Invoke END ctl g fuel s w = (Returned s' (Some e), w') -> s' = zero).
Proof.
  split; [apply loop_body_Return|].
  intros fuel s w s' e w'. unfold Invoke, bind, ret. emits.
  destruct (run_loop END ctl g fuel _ _) as [r w1] eqn:Hr.
  destruct r as [s1|s1 e1| |]; emits; try discriminate.
  intros [= <- -> _]. eapply run_loop_LReturn; eauto.
Qed.

(** C2: at the top of any loop iteration with [steps >= recursionLimit]
    the loop returns the recursion-limit error before the [END] check,
    with nothing sent and no node or router called; with a non-positive
    limit [Invoke] fails in its first iteration and calls no user code. *)
Theorem recursion_limit_first END ctl g :
  (forall c w, recursionLimit g <= steps c ->
     loop_body END ctl g c w =
       (Return zero (Some (ErrRecursionLimit (recursionLimit g))), w)) /\
  (recursionLimit g <= 0 -> forall fuel s w, exists new,
     Invoke END ctl g (S fuel) s w =
       (Returned zero (Some (ErrRecursionLimit (recursionLimit g))), append_log w new) /\
     Forall (fun i => is_call i = false) new).
Proof.
  assert (Htop : forall c w, recursionLimit g <= steps c ->
     loop_body END ctl g c w =
       (Return zero (Some (ErrRecursionLimit (recursionLimit g))), w)).
  { intros c w Hle. unfold loop_body, ret.
    replace (Z.leb (recursionLimit g) (steps c)) with true; [reflexivity|].
    symmetry; apply Z.leb_le; lia. }
  split; [exact Htop|].
  intros Hle fuel s w. unfold Invoke, bind, ret. emits. simpl.
  unfold bind, ret. rewrite Htop by (simpl; lia).
  eexists; split; [rewrite append_log_app; reflexivity|].
  unfold values_item, event_item.
  destruct (hasMode _ StreamValues), (hasMode _ StreamDebug); repeat constructor.
Qed.

(** C9: the [Interrupt] helper returns the zero state and an
    [InterruptError] carrying the given data, whatever the data. *)
Theorem Interrupt_helper_zero (data : Data) :
  Interrupt data = (zero, Some (InterruptError data)) /\ fst (Interrupt data) = zero.
Proof. split; reflexivity. Qed.

(** C10 (as amended): with entry point [END] and a positive limit,
    [Invoke] calls no step function and no router and returns the input
    state with a nil error; what it sends is the input state as the
    initial and final [StreamValues] event when that mode is active
    (nothing otherwise) and the two "LangGraph" events under
    [StreamDebug]. *)
Theorem Invoke_entry_END END ctl g fuel s w :
  entryPoint g = END -> 0 < recursionLimit g ->
  let m := streamModes g in
  Invoke END ctl g (S fuel) s w =
    (Returned s None,
     append_log w (values_item m s ++ event_item m (graph_event EventChainStart) ++
                   values_item m s ++ event_item m (graph_event EventChainEnd))).
Proof.
  intros Hentry Hpos m. unfold Invoke, bind, ret. emits. simpl.
  unfold loop_body, bind, ret; simpl.
  replace (Z.leb (recursionLimit g) 0) with false by (symmetry; apply Z.leb_gt; lia).
  rewrite Hentry, String.eqb_refl. emits.
  rewrite !append_log_app, !app_assoc. reflexivity.
Qed.

Lemma apply_mapping_translate mapping (names : list string) :
  apply_mapping mapping names = map (translate mapping) names.
Proof.
  destruct mapping as [mp|]; simpl; [|by rewrite map_id].
  apply map_ext. intros n. unfold translate. destruct (mp !! n); reflexivity.
Qed.

(** C3: routing takes the first edge, in insertion order, whose [From] is
    the current node (only its router is called); a non-nil mapping
    translates every returned name, absent names passing through; the next
    node is the translated first candidate, however many candidates the
    router returned. *)
Theorem route_first_match (es pre post : list (ConditionalEdge State Data E)) (e : ConditionalEdge State Data E)
    cur s w e1 n0 (rest : list string) :
  es = pre ++ e :: post ->
  Forall (fun e' => From e' <> cur) pre ->
  From e = cur ->
  Router e (env w) s = (e1, (n0 :: rest, None)) ->
  apply_mapping (Mapping e) (n0 :: rest) = map (translate (Mapping e)) (n0 :: rest) /\
  route es cur s w =
    (Some (inl (translate (Mapping e) n0)),
     {| env := e1; im := im w; log := log w ++ [ICallRouter cur s] |}).
Proof.
  intros -> Hpre Hfrom Hrouter.
  split; [apply apply_mapping_translate|].
  induction Hpre as [|e' pre Hne Hpre IH]; simpl.
  - rewrite Hfrom, String.eqb_refl. unfold bind. simpl.
    rewrite Hrouter. simpl. rewrite apply_mapping_translate. reflexivity.
  - destruct (String.eqb_spec (From e') cur); [contradiction|]. exact IH.
Qed.

(** ** Visits of a node *)

Ltac ext_tac :=
  first [ exists []; simpl; rewrite app_nil_r; reflexivity
        | eexists; simpl; reflexivity
        | simpl; eexists; rewrite <- app_assoc; reflexivity ].

Lemma extends_trans w1 w2 w3 : extends w1 w2 -> extends w2 w3 -> extends w1 w3.
Proof. intros [l1 Ha] [l2 Hb]. exists (l1 ++ l2). rewrite Hb, Ha, app_assoc. reflexivity. Qed.

Lemma append_log_extends w l : extends w (append_log w l).
Proof. exists l. reflexivity. Qed.

Lemma Interrupt_extends ctl n d s w r w' :
  InterruptManager_Interrupt ctl n d s w = (r, w') -> extends w w'.
Proof.
  unfold InterruptManager_Interrupt.
  destruct (interrupted (im w)); [intros [= _ <-]; ext_tac|].
  destruct (marshal d); [destruct (marshal s)|]; intros [= _ <-]; ext_tac.
Qed.

Lemma Wait_extends ctl w r w' : WaitForResume (Data := Data) ctl w = (r, w') -> extends w w'.
Proof.
  unfold WaitForResume. destruct (on_wait ctl (env w)) as [[e1 ops] act].
  destruct act as [s|msg]; [destruct (InterruptManager_Resume _) as [[?|] ?]|];
    intros [= _ <-]; ext_tac.
Qed.

Lemma route_extends es cur s w r w' : route es cur s w = (r, w') -> extends w w'.
Proof.
  revert w. induction es as [|e es IH]; intros w; simpl.
  - intros [= _ <-]; ext_tac.
  - destruct (String.eqb (From e) cur); [|apply IH].
    unfold bind; rewrite send_eq. simpl.
    destruct (Router e (env w) s) as [e1 [names [err|]]];
      [|destruct names]; intros [= _ <-]; ext_tac.
Qed.

Lemma after_call_extends ctl g cur steps r w o w' :
  after_call ctl g cur steps r w = (o, w') -> extends w w'.
Proof.
  unfold after_call, bind, ret. destruct r as [st1 [err|]].
  - destruct (IsInterruptError err); [|intros [= _ <-]; ext_tac].
    destruct (GetInterruptData err) as [data ?].
    destruct (InterruptManager_Interrupt _ _ _ _ _) as [[ierr|] w3] eqn:Hi;
      [intros [= _ <-]; eapply Interrupt_extends; eauto|].
    destruct (WaitForResume _ _) as [[r'|err'|] w4] eqn:Hw; intros [= _ <-];
      eapply extends_trans; [eapply Interrupt_extends; eauto| eapply Wait_extends; eauto
                            |eapply Interrupt_extends; eauto| eapply Wait_extends; eauto
                            |eapply Interrupt_extends; eauto| eapply Wait_extends; eauto].
  - emits. destruct (route _ _ _ _) as [rr w3] eqn:Hr.
    assert (extends w w3).
    { eapply extends_trans; [|eapply route_extends; eauto].
      rewrite append_log_app. apply append_log_extends. }
    destruct rr as [[next|err']|]; intros [= _ <-]; auto.
Qed.

(** A visit that passes the breakpoint check with state [x]: the start
    event, the call of the node's function on [x], then [after_call]. *)
Lemma visit_eq END ctl g c w nd x w1 :
  steps c < recursionLimit g -> currentNode c <> END ->
  nodes g !! currentNode c = Some nd ->
  check_breakpoint ctl (currentNode c) (cstate c) w = (inl x, w1) ->
  loop_body END ctl g c w =
    let '(e2, r) := Function nd (env w1) x in
    after_call ctl g (currentNode c) (steps c) r
      (set_env e2 (append_log w1
         (event_item (streamModes g) (node_event EventChainStart (currentNode c) (steps c))
          ++ [ICallNode (currentNode c) x]))).
Proof.
  intros Hlt Hne Hnd Hc. unfold loop_body, bind, ret.
  replace (Z.leb (recursionLimit g) (steps c)) with false by (symmetry; apply Z.leb_gt; lia).
  destruct (String.eqb_spec (currentNode c) END); [contradiction|].
  rewrite Hc, Hnd. emits. unfold call_node, bind. rewrite send_eq. simpl.
  destruct (Function nd (env w1) x) as [e2 r]. rewrite append_log_app. reflexivity.
Qed.

Lemma visit_call END ctl g c w nd x w1 :
  steps c < recursionLimit g -> currentNode c <> END ->
  nodes g !! currentNode c = Some nd ->
  check_breakpoint ctl (currentNode c) (cstate c) w = (inl x, w1) ->
  exists o w' post, loop_body END ctl g c w = (o, w') /\
    log w' = log w1 ++
      event_item (streamModes g) (node_event EventChainStart (currentNode c) (steps c))
      ++ ICallNode (currentNode c) x :: post.
Proof.
  intros Hlt Hne Hnd Hc. rewrite (visit_eq END ctl g c w nd x w1) by assumption.
  destruct (Function nd (env w1) x) as [e2 r].
  destruct (after_call _ _ _ _ _ _) as [o w'] eqn:Ha.
  apply after_call_extends in Ha as [post Hpost].
  exists o, w', post. split; [reflexivity|].
  rewrite Hpost. simpl. rewrite <- !app_assoc. reflexivity.
Qed.

Lemma fold_bp_interrupted ops m :
  interrupted (fold_left apply_bp_op ops m) = interrupted m.
Proof.
  revert m. induction ops as [|o ops IH]; intros m; simpl; [reflexivity|].
  rewrite IH. destruct o; reflexivity.
Qed.

(** [Interrupt] on a manager that is not interrupted, with data and state
    that marshal, followed by a [Resume(r)]. *)
Lemma interrupt_then_resume ctl cur d s w db sb e1 ops r :
  interrupted (im w) = false -> marshal d = inl db -> marshal s = inl sb ->
  on_wait ctl (on_interrupt ctl (env w)
    {| NodeName := cur; InfoData := db; InfoState := sb |}) = (e1, ops, DoResume r) ->
  exists w1 w2, InterruptManager_Interrupt ctl cur d s w = (None, w1) /\
    WaitForResume (Data := Data) ctl w1 = (WResumed r, w2) /\
    log w2 = log w ++ [IInterrupt {| NodeName := cur; InfoData := db; InfoState := sb |}] /\
    interrupted (im w2) = false.
Proof.
  intros Hi Hd Hs Hw. unfold InterruptManager_Interrupt. rewrite Hi, Hd, Hs.
  eexists _, _; split; [reflexivity|].
  unfold WaitForResume. simpl. rewrite Hw.
  unfold InterruptManager_Resume. rewrite fold_bp_interrupted. simpl.
  split; [reflexivity|]. split; reflexivity.
Qed.

Lemma check_breakpoint_miss ctl cur s w :
  HasBreakpoint cur (im w) = false -> check_breakpoint ctl cur s w = (inl s, w).
Proof. intros Hb. unfold check_breakpoint. rewrite Hb. reflexivity. Qed.

Lemma check_breakpoint_hit ctl cur s w db sb e1 ops r :
  HasBreakpoint cur (im w) = true -> interrupted (im w) = false ->
  marshal nil_value = inl db -> marshal s = inl sb ->
  on_wait ctl (on_interrupt ctl (env w)
    {| NodeName := cur; InfoData := db; InfoState := sb |}) = (e1, ops, DoResume r) ->
  exists w1, check_breakpoint ctl cur s w = (inl r, w1) /\
    log w1 = log w ++ [IInterrupt {| NodeName := cur; InfoData := db; InfoState := sb |}] /\
    interrupted (im w1) = false.
Proof.
  intros Hb Hi Hd Hs Hw. unfold check_breakpoint. rewrite Hb.
  destruct (interrupt_then_resume ctl cur nil_value s w db sb e1 ops r Hi Hd Hs Hw)
    as (w1 & w2 & Hi1 & Hw2 & Hlog & Hint).
  rewrite Hi1, Hw2. eauto.
Qed.

Lemma visit_no_breakpoint END ctl g c w nd :
  steps c < recursionLimit g -> currentNode c <> END ->
  nodes g !! currentNode c = Some nd ->
  HasBreakpoint (currentNode c) (im w) = false ->
  exists o w' post, loop_body END ctl g c w = (o, w') /\
    log w' = log w ++
      event_item (streamModes g) (node_event EventChainStart (currentNode c) (steps c))
      ++ ICallNode (currentNode c) (cstate c) :: post.
Proof.
  intros Hlt Hne Hnd Hb. eapply visit_call; eauto. apply check_breakpoint_miss; exact Hb.
Qed.

Lemma event_item_quiet modes ev :
  Forall (fun i => is_interrupt i = false /\ is_call i = false) (event_item modes ev).
Proof. unfold event_item. destruct (hasMode modes StreamDebug); repeat constructor. Qed.

(** C5: at a visit of a node [N] that has a breakpoint (loop top passed,
    [N] registered), exactly one [InterruptInfo] -- node [N], nil data,
    the current state -- is sent before [N]'s step function runs, and the
    function runs on the state given to [Resume]; at a visit without a
    breakpoint nothing is sent on the interrupt channel before the call,
    which runs on the current state; [RemoveBreakpoint N] clears the
    breakpoint checked at the next visit. (The manager is not left
    interrupted and the state marshals, as [Interrupt] requires.) *)
Theorem breakpoint_visit END ctl g c w nd :
  steps c < recursionLimit g -> currentNode c <> END ->
  nodes g !! currentNode c = Some nd ->
  (forall db sb e1 ops r,
     HasBreakpoint (currentNode c) (im w) = true -> interrupted (im w) = false ->
     marshal nil_value = inl db -> marshal (cstate c) = inl sb ->
     on_wait ctl (on_interrupt ctl (env w)
       {| NodeName := currentNode c; InfoData := db; InfoState := sb |}) = (e1, ops, DoResume r) ->
     exists o w' pre post, loop_body END ctl g c w = (o, w') /\
       log w' = log w ++
         IInterrupt {| NodeName := currentNode c; InfoData := db; InfoState := sb |}
         :: pre ++ ICallNode (currentNode c) r :: post /\
       Forall (fun i => is_interrupt i = false /\ is_call i = false) pre) /\
  (HasBreakpoint (currentNode c) (im w) = false ->
     exists o w' pre post, loop_body END ctl g c w = (o, w') /\
       log w' = log w ++ pre ++ ICallNode (currentNode c) (cstate c) :: post /\
       Forall (fun i => is_interrupt i = false /\ is_call i = false) pre) /\
  (forall m, HasBreakpoint (currentNode c) (RemoveBreakpoint (currentNode c) m) = false).
Proof.
  intros Hlt Hne Hnd. split; [|split].
  - intros db sb e1 ops r Hb Hi Hd Hs Hw.
    destruct (check_breakpoint_hit ctl (currentNode c) (cstate c) w db sb e1 ops r Hb Hi Hd Hs Hw)
      as (w1 & Hc & Hlog1 & _).
    destruct (visit_call END ctl g c w nd r w1 Hlt Hne Hnd Hc) as (o & w' & post & Hl & Hlog).
    exists o, w', (event_item (streamModes g) (node_event EventChainStart (currentNode c) (steps c))), post. split; [exact Hl|]. split; [|apply event_item_quiet].
    rewrite Hlog, Hlog1, <- app_assoc. reflexivity.
  - intros Hb.
    destruct (visit_no_breakpoint END ctl g c w nd Hlt Hne Hnd Hb) as (o & w' & post & Hl & Hlog).
    exists o, w', (event_item (streamModes g) (node_event EventChainStart (currentNode c) (steps c))), post. split; [exact Hl|]. split; [exact Hlog|apply event_item_quiet].
  - intros m. unfold HasBreakpoint, RemoveBreakpoint. simpl.
    apply bool_decide_eq_false. set_solver.
Qed.

(** C4: when the step function of the visited node returns an
    interrupt-flavored error and the controller resumes with [r], the loop
    continues at the same node with [steps] unchanged and [r] as the
    current state; the next step-function call is that node's, on [r]
    (when the node has no breakpoint; with one, [breakpoint_visit] applies
    first). *)
Theorem interrupt_retries_node END ctl g c w nd x w1 e2 s' d db sb e4 ops r :
  steps c < recursionLimit g -> currentNode c <> END ->
  nodes g !! currentNode c = Some nd ->
  check_breakpoint ctl (currentNode c) (cstate c) w = (inl x, w1) ->
  Function nd (env w1) x = (e2, (s', Some (InterruptError d))) ->
  interrupted (im w1) = false -> marshal d = inl db -> marshal s' = inl sb ->
  on_wait ctl (on_interrupt ctl e2
    {| NodeName := currentNode c; InfoData := db; InfoState := sb |}) = (e4, ops, DoResume r) ->
  exists w', loop_body END ctl g c w =
      (Continue {| currentNode := currentNode c; steps := steps c; cstate := r |}, w') /\
    (HasBreakpoint (currentNode c) (im w') = false ->
       exists o w'' pre post,
         loop_body END ctl g {| currentNode := currentNode c; steps := steps c; cstate := r |} w'
           = (o, w'') /\
         log w'' = log w' ++ pre ++ ICallNode (currentNode c) r :: post /\
         Forall (fun i => is_call i = false) pre).
Proof.
  intros Hlt Hne Hnd Hc Hf Hi Hd Hs Hw.
  rewrite (visit_eq END ctl g c w nd x w1 Hlt Hne Hnd Hc), Hf.
  set (w2 := set_env e2 _).
  assert (Hi2 : interrupted (im w2) = false) by exact Hi.
  assert (He2 : env w2 = e2) by reflexivity.
  rewrite <- He2 in Hw.
  destruct (interrupt_then_resume ctl (currentNode c) d s' w2 db sb e4 ops r Hi2 Hd Hs Hw)
    as (w3 & w4 & H3 & H4 & _ & _).
  unfold after_call, bind, ret; simpl. rewrite H3, H4.
  exists w4. split; [reflexivity|].
  intros Hb.
  destruct (visit_no_breakpoint END ctl g
              {| currentNode := currentNode c; steps := steps c; cstate := r |} w4 nd
              Hlt Hne Hnd Hb) as (o & w'' & post & Hl & Hlog).
  exists o, w'', (event_item (streamModes g) (node_event EventChainStart (currentNode c) (steps c))), post. split; [exact Hl|]. split; [exact Hlog|].
  unfold event_item. destruct (hasMode _ StreamDebug); repeat constructor.
Qed.

(** ** Further properties of the builders, the routing and the manager *)

Lemma route_app es es' cur s w :
  route (es ++ es') cur s w =
    if existsb (fun e => String.eqb (From e) cur) es then route es cur s w
    else route es' cur s w.
Proof.
  induction es as [|e es IH]; simpl; [reflexivity|].
  destruct (String.eqb (From e) cur); [reflexivity|exact IH].
Qed.

Lemma existsb_From es cur :
  existsb (fun e => String.eqb (From e) cur) es = true <-> Exists (fun e => From e = cur) es.
Proof.
  rewrite existsb_exists, Exists_exists.
  split; intros (e & Hin & He); exists e; split; try (apply list_elem_of_In || apply elem_of_list_In); auto;
    first [apply String.eqb_eq; exact He | apply String.eqb_eq in He; exact He].
Qed.

(** X3: an edge appended from a node that already has an edge, or from
    another node, never changes how that node is routed (first match). *)
Theorem AddConditionalEdges_shadowed g from r mp cur s w :
  Exists (fun e => From e = cur) (edges g) \/ from <> cur ->
  route (edges (AddConditionalEdges g from r mp)) cur s w = route (edges g) cur s w.
Proof.
  intros Hc. simpl. rewrite route_app.
  destruct (existsb _ (edges g)) eqn:Hex; [reflexivity|].
  destruct Hc as [Hc|Hc]; [apply existsb_From in Hc; congruence|].
  simpl. destruct (String.eqb_spec from cur); [contradiction|].
  symmetry. induction (edges g) as [|e es IH]; simpl in *; [reflexivity|].
  apply orb_false_iff in Hex as [He Hes]. rewrite He. exact (IH Hes).
Qed.

(** X4: routing errors. With no edge from the node, no router is called
    and nothing changes; if the first matching router fails or returns no
    name, its one call is recorded and the matching error is returned. *)
Theorem route_errors es pre e post cur s w e1 names err :
  (Forall (fun e' => From e' <> cur) es -> route es cur s w = (None, w)) /\
  (es = pre ++ e :: post -> Forall (fun e' => From e' <> cur) pre -> From e = cur ->
   Router e (env w) s = (e1, (names, Some err)) ->
   route es cur s w = (Some (inr (ErrInRouter cur err)),
                       {| env := e1; im := im w; log := log w ++ [ICallRouter cur s] |})) /\
  (es = pre ++ e :: post -> Forall (fun e' => From e' <> cur) pre -> From e = cur ->
   Router e (env w) s = (e1, ([], None)) ->
   route es cur s w = (Some (inr ErrInvalidRouterOutput),
                       {| env := e1; im := im w; log := log w ++ [ICallRouter cur s] |})).
Proof.
  assert (Hpick : es = pre ++ e :: post -> Forall (fun e' => From e' <> cur) pre -> From e = cur ->
            route es cur s w = route [e] cur s w).
  { intros -> Hpre Hfrom. rewrite route_app.
    assert (Hno : existsb (fun e' => String.eqb (From e') cur) pre = false).
    { apply not_true_iff_false. rewrite existsb_From. intros Hex.
      apply Exists_exists in Hex as (x & Hin & Hx).
      rewrite Forall_forall in Hpre. exact (Hpre x Hin Hx). }
    rewrite Hno. simpl. rewrite Hfrom, String.eqb_refl. reflexivity. }
  split; [|split].
  - intros Hall. clear Hpick. induction Hall as [|e' es' Hne _ IH]; simpl; [reflexivity|].
    destruct (String.eqb_spec (From e') cur); [contradiction|exact IH].
  - intros Hes Hpre Hfrom Hr. rewrite (Hpick Hes Hpre Hfrom). simpl.
    rewrite Hfrom, String.eqb_refl. unfold bind. simpl. rewrite Hr. reflexivity.
  - intros Hes Hpre Hfrom Hr. rewrite (Hpick Hes Hpre Hfrom). simpl.
    rewrite Hfrom, String.eqb_refl. unfold bind. simpl. rewrite Hr. reflexivity.
Qed.

(** X8: a wait cancelled by the context leaves the manager interrupted;
    from then on every breakpoint visit fails with "already interrupted"
    before anything is sent or any node is called. *)
Theorem cancelled_wait_stays_interrupted END ctl g c w db sb e1 ops msg :
  steps c < recursionLimit g -> currentNode c <> END ->
  HasBreakpoint (currentNode c) (im w) = true ->
  (interrupted (im w) = false -> marshal nil_value = inl db -> marshal (cstate c) = inl sb ->
   on_wait ctl (on_interrupt ctl (env w)
     {| NodeName := currentNode c; InfoData := db; InfoState := sb |}) = (e1, ops, CtxDone msg) ->
   exists w', loop_body END ctl g c w =
       (Return zero (Some (ErrWaitingForResume (OtherError msg))), w') /\
     log w' = log w ++ [IInterrupt {| NodeName := currentNode c; InfoData := db; InfoState := sb |}] /\
     interrupted (im w') = true) /\
  (interrupted (im w) = true ->
   loop_body END ctl g c w =
     (Return zero (Some (ErrTriggeringBreakpoint (OtherError "already interrupted"))), w)).
Proof.
  intros Hlt Hne Hb.
  unfold loop_body, bind, ret.
  replace (Z.leb (recursionLimit g) (steps c)) with false by (symmetry; apply Z.leb_gt; lia).
  destruct (String.eqb_spec (currentNode c) END); [contradiction|].
  unfold check_breakpoint. rewrite Hb.
  split.
  - intros Hi Hd Hs Hw. unfold InterruptManager_Interrupt. rewrite Hi, Hd, Hs.
    unfold WaitForResume. simpl. rewrite Hw.
    eexists; split; [reflexivity|]. split; [reflexivity|].
    simpl. rewrite fold_bp_interrupted. reflexivity.
  - intros Hi. unfold InterruptManager_Interrupt. rewrite Hi. reflexivity.
Qed.

(** ** What each primitive does to the log and the manager *)

Lemma Interrupt_shape ctl n (d : Data) s w r w' :
  InterruptManager_Interrupt ctl n d s w = (r, w') ->
  breakpoints (im w') = breakpoints (im w) /\
  (log w' = log w \/ exists info, log w' = log w ++ [IInterrupt info]).
Proof.
  unfold InterruptManager_Interrupt.
  destruct (interrupted (im w)); [intros [= _ <-]; auto|].
  destruct (marshal d); [destruct (marshal s)|]; intros [= _ <-]; simpl; eauto.
Qed.

Lemma Wait_shape ctl w r w' :
  WaitForResume (Data := Data) ctl w = (r, w') ->
  log w' = log w /\
  ((forall e, snd (fst (on_wait ctl e)) = []) -> breakpoints (im w') = breakpoints (im w)).
Proof.
  unfold WaitForResume. destruct (on_wait ctl (env w)) as [[e1 ops] act] eqn:Hw.
  assert (Hops : (forall e, snd (fst (on_wait ctl e)) = []) -> ops = []).
  { intros Hn. specialize (Hn (env w)). rewrite Hw in Hn. exact Hn. }
  destruct act as [s|msg]; [unfold InterruptManager_Resume; destruct (interrupted _)|];
    intros [= _ <-]; simpl; split; auto; intros Hn; rewrite (Hops Hn); reflexivity.
Qed.

Lemma Wait_resumed_flag ctl w s w' :
  WaitForResume (Data := Data) ctl w = (WResumed s, w') -> interrupted (im w') = false.
Proof.
  unfold WaitForResume. destruct (on_wait ctl (env w)) as [[e1 ops] act].
  destruct act as [s0|msg]; [|discriminate].
  unfold InterruptManager_Resume. destruct (interrupted _); [|discriminate].
  intros [= _ <-]. reflexivity.
Qed.

Lemma route_shape es cur s w r w' :
  route es cur s w = (r, w') ->
  im w' = im w /\
  ((r = None /\ log w' = log w) \/ log w' = log w ++ [ICallRouter cur s]).
Proof.
  revert w. induction es as [|e es IH]; intros w; simpl.
  - intros [= <- <-]. auto.
  - destruct (String.eqb (From e) cur); [|apply IH].
    unfold bind; rewrite send_eq. simpl.
    destruct (Router e (env w) s) as [e1 [names [err|]]];
      [|destruct names]; intros [= _ <-]; simpl; auto.
Qed.

Lemma count_items_app (p : item State -> bool) l1 l2 :
  count_items p (l1 ++ l2) = (count_items p l1 + count_items p l2)%nat.
Proof. induction l1 as [|i l1 IH]; simpl; [reflexivity|]. rewrite IH. lia. Qed.

(** ** Invariants of whole runs *)

Section Preserve.

Variables (END : string) (ctl : Controller State E) (g : StateGraph State Data E).
Variable R : World State E -> World State E -> Prop.
Variable A : item State -> Prop.
Hypothesis R_refl : forall w, R w w.
Hypothesis R_trans : forall w1 w2 w3, R w1 w2 -> R w2 w3 -> R w1 w3.
Hypothesis R_interrupt : forall n (d : Data) s w r w',
  InterruptManager_Interrupt ctl n d s w = (r, w') -> R w w'.
Hypothesis R_wait : forall w r w', WaitForResume (Data := Data) ctl w = (r, w') -> R w w'.
Hypothesis R_route : forall cur s w r w', route (edges g) cur s w = (r, w') -> R w w'.
Hypothesis R_env : forall e w, R w (set_env e w).
Hypothesis R_append : forall w l, Forall A l -> R w (append_log w l).
Hypothesis A_values : forall s, Forall A (values_item (streamModes g) s).
Hypothesis A_events : forall ev, Forall A (event_item (streamModes g) ev).
Hypothesis A_updates : forall s, Forall A (update_item (streamModes g) s).
Hypothesis A_node : forall n s, A (ICallNode n s).

Lemma check_breakpoint_R cur s w r w' :
  check_breakpoint ctl cur s w = (r, w') -> R w w'.
Proof.
  unfold check_breakpoint. destruct (HasBreakpoint cur (im w)); [|intros [= _ <-]; apply R_refl].
  destruct (InterruptManager_Interrupt _ _ _ _ _) as [ierr w1] eqn:Hi.
  apply R_interrupt in Hi.
  destruct ierr; [intros [= _ <-]; exact Hi|].
  destruct (WaitForResume _ _) as [wr w2] eqn:Hw. apply R_wait in Hw.
  destruct wr; intros [= _ <-]; eauto.
Qed.

Lemma after_call_R cur steps r w o w' :
  after_call ctl g cur steps r w = (o, w') -> R w w'.
Proof.
  unfold after_call, bind, ret. destruct r as [st1 [err|]].
  - destruct (IsInterruptError err); [|intros [= _ <-]; apply R_refl].
    destruct (GetInterruptData err) as [data ?].
    destruct (InterruptManager_Interrupt _ _ _ _ _) as [[ierr|] w3] eqn:Hi;
      apply R_interrupt in Hi; [intros [= _ <-]; exact Hi|].
    destruct (WaitForResume _ _) as [[r'|err'|] w4] eqn:Hw; apply R_wait in Hw;
      intros [= _ <-]; eauto.
  - emits. destruct (route _ _ _ _) as [rr w3] eqn:Hr. apply R_route in Hr.
    assert (R w w3).
    { eapply R_trans; [|exact Hr]. rewrite append_log_app.
      apply R_append, Forall_app; split; auto. }
    destruct rr as [[next|err']|]; intros [= _ <-]; auto.
Qed.

Lemma loop_body_R c w o w' : loop_body END ctl g c w = (o, w') -> R w w'.
Proof.
  unfold loop_body, bind, ret.
  destruct (Z.leb _ _); [intros [= _ <-]; apply R_refl|].
  destruct (String.eqb _ _); [intros [= _ <-]; apply R_refl|].
  destruct (check_breakpoint _ _ _ _) as [[x|o'] w1] eqn:Hc; apply check_breakpoint_R in Hc.
  - destruct (nodes g !! _) as [nd|]; [|intros [= _ <-]; exact Hc].
    rewrite EmitEvent_eq. unfold call_node, bind. rewrite send_eq. cbn [fst snd].
    destruct (Function nd _ _) as [e1 r]. intros Ha. apply after_call_R in Ha.
    eapply R_trans; [exact Hc|]. eapply R_trans; [|exact Ha].
    eapply R_trans; [|apply R_env]. rewrite append_log_app.
    apply R_append, Forall_app; split; auto.
  - intros [= _ <-]; exact Hc.
Qed.

Lemma run_loop_R fuel c w r w' : run_loop END ctl g fuel c w = (r, w') -> R w w'.
Proof.
  revert c w. induction fuel as [|fuel IH]; intros c w; simpl; unfold bind, ret.
  - intros [= _ <-]; apply R_refl.
  - destruct (loop_body END ctl g c w) as [o w1] eqn:Hb. apply loop_body_R in Hb.
    destruct o; [intros Hr; eapply R_trans; [exact Hb|]; eapply IH; exact Hr
                | intros [= _ <-]; exact Hb ..].
Qed.

Lemma Invoke_R fuel s w r w' : Invoke END ctl g fuel s w = (r, w') -> R w w'.
Proof.
  unfold Invoke, bind, ret. emits.
  destruct (run_loop END ctl g fuel _ _) as [r1 w1] eqn:Hr. apply run_loop_R in Hr.
  rewrite append_log_app in Hr.
  assert (Hw1 : R w w1).
  { eapply R_trans; [|exact Hr]. apply R_append, Forall_app; split; auto. }
  destruct r1; emits; intros [= _ <-]; auto.
  rewrite append_log_app. eapply R_trans; [exact Hw1|].
  apply R_append, Forall_app; split; auto.
Qed.

End Preserve.

(** X10: whatever happens during [Invoke] (routing, interrupts, resumes,
    failures), every send on the stream channel is a [StreamValues] or
    [StreamUpdates] event whose mode is configured, and every debug event
    is sent with [StreamDebug] configured; the calls of user code and the
    interrupt infos are all it adds besides. *)
Theorem Invoke_stream_gated END ctl g fuel s w r w' :
  Invoke END ctl g fuel s w = (r, w') ->
  exists l, log w' = log w ++ l /\ Forall (fun i => stream_gated (streamModes g) i = true) l.
Proof.
  set (P := fun i => stream_gated (streamModes g) i = true).
  apply (Invoke_R END ctl g (fun w w' => exists l, log w' = log w ++ l /\ Forall P l) P).
  - intros w0. exists []. rewrite app_nil_r. auto.
  - intros w1 w2 w3 (l1 & H1' & F1) (l2 & H2' & F2). exists (l1 ++ l2).
    rewrite H2', H1', app_assoc. split; [reflexivity|]. apply Forall_app; auto.
  - intros n d s0 w0 r0 w1 Hi. apply Interrupt_shape in Hi as [_ [Hl|[info Hl]]].
    + exists []. rewrite Hl, app_nil_r. auto.
    + exists [IInterrupt info]. split; [exact Hl|]. repeat constructor.
  - intros w0 r0 w1 Hw. apply Wait_shape in Hw as [Hl _]. exists []. rewrite Hl, app_nil_r. auto.
  - intros cur s0 w0 r0 w1 Hr. apply route_shape in Hr as [_ [[_ Hl]|Hl]].
    + exists []. rewrite Hl, app_nil_r. auto.
    + exists [ICallRouter cur s0]. split; [exact Hl|]. repeat constructor.
  - intros e w0. exists []. simpl. rewrite app_nil_r. auto.
  - intros w0 l Hl. exists l. auto.
  - intros s0. unfold values_item. destruct (hasMode _ StreamValues) eqn:Hm; constructor; [|constructor].
    unfold P. simpl. exact Hm.
  - intros ev. unfold event_item. destruct (hasMode _ StreamDebug) eqn:Hm; constructor; [|constructor].
    exact Hm.
  - intros s0. unfold update_item. destruct (hasMode _ StreamUpdates) eqn:Hm; constructor; [|constructor].
    unfold P. simpl. exact Hm.
  - intros n s0. reflexivity.
Qed.

(** X11: the engine never adds or removes a breakpoint: over a whole
    [Invoke], with a reader of the interrupt channel that changes no
    breakpoint, the breakpoint set is the one it started with. *)
Theorem Invoke_keeps_breakpoints END ctl g fuel s w r w' :
  (forall e, snd (fst (on_wait ctl e)) = []) ->
  Invoke END ctl g fuel s w = (r, w') -> breakpoints (im w') = breakpoints (im w).
Proof.
  intros Hops.
  apply (Invoke_R END ctl g (fun w w' => breakpoints (im w') = breakpoints (im w)) (fun _ => True)).
  - reflexivity.
  - intros w1 w2 w3 -> ->. reflexivity.
  - intros n d s0 w0 r0 w1 Hi. apply Interrupt_shape in Hi as [Hb _]. exact Hb.
  - intros w0 r0 w1 Hw. apply Wait_shape in Hw as [_ Hb]. exact (Hb Hops).
  - intros cur s0 w0 r0 w1 Hr. apply route_shape in Hr as [Him _]. rewrite Him. reflexivity.
  - reflexivity.
  - reflexivity.
  - intros; apply Forall_true; auto.
  - intros; apply Forall_true; auto.
  - intros; apply Forall_true; auto.
  - auto.
Qed.

(** ** The [interrupted] flag across a run *)

Lemma check_breakpoint_inl_flag ctl cur s w x w1 :
  check_breakpoint ctl cur s w = (inl x, w1) ->
  interrupted (im w) = false -> interrupted (im w1) = false.
Proof.
  unfold check_breakpoint. destruct (HasBreakpoint cur (im w)); [|intros [= _ <-]; auto].
  destruct (InterruptManager_Interrupt _ _ _ _ _) as [[?|] w2]; [discriminate|].
  destruct (WaitForResume _ _) as [[r|err|] w3] eqn:Hw; [|discriminate|discriminate].
  intros [= _ <-] _. eapply Wait_resumed_flag; eauto.
Qed.

Lemma after_call_flag ctl g cur steps r w o w' :
  after_call ctl g cur steps r w = (o, w') -> interrupted (im w) = false ->
  match o with Continue _ | Break _ => interrupted (im w') = false | _ => True end.
Proof.
  unfold after_call, bind, ret. destruct r as [st1 [err|]].
  - destruct (IsInterruptError err); [|intros [= <- _]; auto].
    destruct (GetInterruptData err) as [data ?].
    destruct (InterruptManager_Interrupt _ _ _ _ _) as [[ierr|] w3]; [intros [= <- _]; auto|].
    destruct (WaitForResume _ _) as [[r'|err'|] w4] eqn:Hw; intros [= <- <-] _; auto.
    eapply Wait_resumed_flag; eauto.
  - emits. destruct (route _ _ _ _) as [rr w3] eqn:Hr. apply route_shape in Hr as [Him _].
    destruct rr as [[next|err']|]; intros [= <- <-] Hi; auto. rewrite Him. exact Hi.
Qed.

Lemma loop_body_flag END ctl g c w o w' :
  loop_body END ctl g c w = (o, w') -> interrupted (im w) = false ->
  match o with Continue _ | Break _ => interrupted (im w') = false | _ => True end.
Proof.
  unfold loop_body, bind, ret.
  destruct (Z.leb _ _); [intros [= <- <-]; auto|].
  destruct (String.eqb _ _); [intros [= <- <-]; auto|].
  destruct (check_breakpoint _ _ _ _) as [[x|o'] w1] eqn:Hc.
  - destruct (nodes g !! _) as [nd|]; [|intros [= <- <-]; auto].
    rewrite EmitEvent_eq. unfold call_node, bind. rewrite send_eq. cbn [fst snd].
    destruct (Function nd _ _) as [e1 r]. intros Ha Hi.
    apply (after_call_flag ctl g _ _ r _ o w' Ha).
    exact (check_breakpoint_inl_flag _ _ _ _ _ _ Hc Hi).
  - unfold check_breakpoint in Hc. destruct (HasBreakpoint _ _); [|discriminate].
    destruct (InterruptManager_Interrupt _ _ _ _ _) as [[ierr|] w2].
    { injection Hc as <- <-. intros [= <- <-]; auto. }
    destruct (WaitForResume _ _) as [[r|err|] w3]; [discriminate| |];
      injection Hc as <- <-; intros [= <- <-]; auto.
Qed.

Lemma run_loop_flag END ctl g fuel c w s w' :
  run_loop END ctl g fuel c w = (LBreak s, w') ->
  interrupted (im w) = false -> interrupted (im w') = false.
Proof.
  revert c w. induction fuel as [|fuel IH]; intros c w; simpl; unfold bind, ret; [discriminate|].
  destruct (loop_body END ctl g c w) as [o w1] eqn:Hb. intros Hr Hi.
  pose proof (loop_body_flag END ctl g c w o w1 Hb Hi) as Hf.
  destruct o as [c'|s'|s' e'|]; try discriminate.
  - exact (IH c' w1 Hr Hf).
  - injection Hr as _ <-. exact Hf.
Qed.

(** X12: an [Invoke] that starts with the manager not interrupted and
    returns a nil error leaves it not interrupted (every interrupt of the
    run was resumed). *)
Theorem Invoke_success_not_interrupted END ctl g fuel s w s' w' :
  interrupted (im w) = false ->
  Invoke END ctl g fuel s w = (Returned s' None, w') -> interrupted (im w') = false.
Proof.
  intros Hi. unfold Invoke, bind, ret. emits.
  destruct (run_loop END ctl g fuel _ _) as [r1 w1] eqn:Hr.
  destruct r1 as [s1|s1 e1| |]; emits; try discriminate.
  - intros [= _ <-]. exact (run_loop_flag END ctl g fuel _ _ s1 w1 Hr Hi).
  - intros [= _ He _]. subst e1. apply run_loop_LReturn in Hr as [_ Hs].
    destruct Hs; discriminate.
Qed.

(** ** Router calls and the recursion limit *)

Lemma count_routers_quiet modes ev s :
  count_items is_router_call (event_item (State := State) modes ev) = 0%nat /\
  count_items is_router_call (values_item modes s) = 0%nat /\
  count_items is_router_call (update_item modes s) = 0%nat.
Proof.
  unfold event_item, values_item, update_item.
  destruct (hasMode modes StreamDebug), (hasMode modes StreamValues),
    (hasMode modes StreamUpdates); repeat split.
Qed.

Lemma count_nodes_quiet modes ev s :
  count_items is_node_call (event_item (State := State) modes ev) = 0%nat /\
  count_items is_node_call (values_item modes s) = 0%nat /\
  count_items is_node_call (update_item modes s) = 0%nat.
Proof.
  unfold event_item, values_item, update_item.
  destruct (hasMode modes StreamDebug), (hasMode modes StreamValues),
    (hasMode modes StreamUpdates); repeat split.
Qed.

Lemma check_breakpoint_routers ctl cur s w r w' :
  check_breakpoint ctl cur s w = (r, w') ->
  (exists l, log w' = log w ++ l /\ count_items is_router_call l = 0%nat) /\
  (forall c', r <> inr (Continue c')).
Proof.
  unfold check_breakpoint. destruct (HasBreakpoint cur (im w)).
  2:{ intros [= <- <-]. split; [exists []; rewrite app_nil_r; auto | discriminate]. }
  destruct (InterruptManager_Interrupt _ _ _ _ _) as [ierr w1] eqn:Hi.
  apply Interrupt_shape in Hi as [_ Hl].
  assert (Hl1 : exists l, log w1 = log w ++ l /\ count_items is_router_call l = 0%nat).
  { destruct Hl as [Hl|[info Hl]]; [exists []; rewrite Hl, app_nil_r|exists [IInterrupt info]]; auto. }
  destruct ierr; [intros [= <- <-]; split; [exact Hl1|discriminate]|].
  destruct (WaitForResume _ _) as [wr w2] eqn:Hw. apply Wait_shape in Hw as [Hl2 _].
  destruct wr; intros [= <- <-]; (split; [rewrite Hl2; exact Hl1|discriminate]).
Qed.

Lemma after_call_routers ctl g cur k r w o w' :
  after_call ctl g cur k r w = (o, w') ->
  exists l, log w' = log w ++ l /\ (count_items is_router_call l <= 1)%nat /\
    (forall c', o = Continue c' -> steps c' = k + Z.of_nat (count_items is_router_call l)).
Proof.
  unfold after_call, bind, ret. destruct r as [st1 [err|]].
  - destruct (IsInterruptError err).
    2:{ intros [= <- <-]. exists []. rewrite app_nil_r. split; [auto|]. split; [simpl; lia|].
        intros ? [=]. }
    destruct (GetInterruptData err) as [data ?].
    destruct (InterruptManager_Interrupt _ _ _ _ _) as [ierr w3] eqn:Hi.
    apply Interrupt_shape in Hi as [_ Hl].
    assert (Hl1 : exists l, log w3 = log w ++ l /\ count_items is_router_call l = 0%nat).
    { destruct Hl as [Hl|[info Hl]]; [exists []; rewrite Hl, app_nil_r|exists [IInterrupt info]]; auto. }
    destruct Hl1 as (l0 & Hl0 & Hc0).
    destruct ierr.
    { intros [= <- <-]. exists l0. split; [auto|]. split; [lia|]. intros ? [=]. }
    destruct (WaitForResume _ _) as [wr w4] eqn:Hw. apply Wait_shape in Hw as [Hl4 _].
    destruct wr; intros [= <- <-]; exists l0; rewrite Hl4; (split; [auto|]); (split; [lia|]);
      intros c' Hc; inversion Hc; subst; simpl; lia.
  - emits. destruct (route _ _ _ _) as [rr w3] eqn:Hr. apply route_shape in Hr as [_ Hl].
    pose proof (count_routers_quiet (streamModes g) (node_event EventChainEnd cur k) st1)
      as (Hq1 & _ & Hq3).
    destruct Hl as [[-> Hl]|Hl].
    + intros [= <- <-]. eexists. split.
      { rewrite Hl. cbn [log append_log]. rewrite <- app_assoc. reflexivity. }
      rewrite count_items_app, Hq1, Hq3. split; [lia|]. intros ? [=].
    + intros Ho. eexists. split.
      { destruct rr as [[next|err']|]; injection Ho as _ <-; rewrite Hl; cbn [log append_log];
          rewrite <- !app_assoc; reflexivity. }
      rewrite !count_items_app, Hq1, Hq3. simpl. split; [lia|].
      intros c' Hc. destruct rr as [[next|err']|]; injection Ho as <- _; inversion Hc; subst; simpl; lia.
Qed.

Lemma loop_body_routers END ctl g c w o w' :
  loop_body END ctl g c w = (o, w') ->
  exists l, log w' = log w ++ l /\
    (count_items is_router_call l = 0%nat \/
     (count_items is_router_call l = 1%nat /\ steps c < recursionLimit g)) /\
    (forall c', o = Continue c' -> steps c' = steps c + Z.of_nat (count_items is_router_call l)).
Proof.
  unfold loop_body, bind, ret.
  destruct (Z.leb _ _) eqn:Hle.
  { intros [= <- <-]. exists []. rewrite app_nil_r. split; [auto|]. split; [auto|]. intros ? [=]. }
  apply Z.leb_gt in Hle.
  destruct (String.eqb _ _).
  { intros [= <- <-]. exists []. rewrite app_nil_r. split; [auto|]. split; [auto|]. intros ? [=]. }
  destruct (check_breakpoint _ _ _ _) as [[x|o'] w1] eqn:Hc;
    apply check_breakpoint_routers in Hc as [(l1 & Hl1 & Hc1) Hnc].
  - destruct (nodes g !! _) as [nd|].
    2:{ intros [= <- <-]. exists l1. split; [auto|]. split; [auto|]. intros ? [=]. }
    rewrite EmitEvent_eq. unfold call_node, bind. rewrite send_eq. cbn [fst snd].
    destruct (Function nd _ _) as [e1 r]. intros Ha.
    apply after_call_routers in Ha as (l2 & Hl2 & Hc2 & Hs2).
    pose proof (count_routers_quiet (streamModes g)
                  (node_event EventChainStart (currentNode c) (steps c)) x) as (Hq & _ & _).
    eexists. split.
    { rewrite Hl2. cbn [log append_log set_env]. rewrite Hl1, <- !app_assoc. reflexivity. }
    rewrite !count_items_app, Hc1, Hq. simpl.
    split; [lia|]. intros c' Ho. rewrite (Hs2 c' Ho). reflexivity.
  - intros [= <- <-]. exists l1. split; [auto|]. split; [auto|].
    intros c' ->. exfalso. exact (Hnc c' eq_refl).
Qed.

Lemma run_loop_routers END ctl g fuel c w r w' :
  run_loop END ctl g fuel c w = (r, w') ->
  exists l, log w' = log w ++ l /\
    Z.of_nat (count_items is_router_call l) <= Z.max 0 (recursionLimit g - steps c).
Proof.
  revert c w. induction fuel as [|fuel IH]; intros c w; simpl; unfold bind, ret.
  { intros [= _ <-]. exists []. rewrite app_nil_r. split; [auto|simpl; lia]. }
  destruct (loop_body END ctl g c w) as [o w1] eqn:Hb.
  apply loop_body_routers in Hb as (l1 & Hl1 & Hc1 & Hs1).
  destruct o as [c'|s'|s' e'|].
  - intros Hr. apply IH in Hr as (l2 & Hl2 & Hc2). exists (l1 ++ l2).
    rewrite Hl2, Hl1, app_assoc. split; [auto|]. rewrite count_items_app.
    specialize (Hs1 c' eq_refl). lia.
  - intros [= _ <-]. exists l1. split; [auto|lia].
  - intros [= _ <-]. exists l1. split; [auto|lia].
  - intros [= _ <-]. exists l1. split; [auto|lia].
Qed.

(** X13: however often nodes are retried after interrupts, one [Invoke]
    calls routers at most [recursionLimit] times (none when the limit is
    not positive): every router call either ends the run or increments
    [steps], which the loop keeps below the limit. *)
Theorem Invoke_router_calls_bounded END ctl g fuel s w r w' :
  Invoke END ctl g fuel s w = (r, w') ->
  exists l, log w' = log w ++ l /\
    Z.of_nat (count_items is_router_call l) <= Z.max 0 (recursionLimit g).
Proof.
  unfold Invoke, bind, ret. emits.
  destruct (run_loop END ctl g fuel _ _) as [r1 w1] eqn:Hr.
  apply run_loop_routers in Hr as (l & Hl & Hc). simpl in Hc.
  pose proof (count_routers_quiet (streamModes g) (graph_event EventChainStart) s) as (Hq1 & Hq2 & _).
  pose proof (count_routers_quiet (streamModes g) (graph_event EventChainEnd) s) as (Hq3 & _ & _).
  destruct r1 as [s1|s1 e1| |]; emits; intros [= _ <-].
  - pose proof (count_routers_quiet (streamModes g) (graph_event EventChainEnd) s1) as (_ & Hq4 & _).
    eexists. split.
    { cbn [log append_log]. rewrite Hl. cbn [log append_log]. rewrite <- !app_assoc. reflexivity. }
    rewrite !count_items_app, Hq1, Hq2, Hq3, Hq4. lia.
  - eexists. split.
    { rewrite Hl. cbn [log append_log]. rewrite <- !app_assoc. reflexivity. }
    rewrite !count_items_app, Hq1, Hq2. lia.
  - eexists. split.
    { rewrite Hl. cbn [log append_log]. rewrite <- !app_assoc. reflexivity. }
    rewrite !count_items_app, Hq1, Hq2. lia.
  - eexists. split.
    { rewrite Hl. cbn [log append_log]. rewrite <- !app_assoc. reflexivity. }
    rewrite !count_items_app, Hq1, Hq2. lia.
Qed.

(** ** Single iterations *)

(** X14: visiting a name with no registered node fails with
    [ErrNodeNotFound] before any call of user code; without a breakpoint
    nothing at all happens first, with one the interrupt is still sent
    and resumed before the lookup fails. *)
Theorem missing_node_not_found END ctl g c w db sb e1 ops r :
  steps c < recursionLimit g -> currentNode c <> END ->
  nodes g !! currentNode c = None ->
  (HasBreakpoint (currentNode c) (im w) = false ->
     loop_body END ctl g c w = (Return zero (Some (ErrNodeNotFound (currentNode c))), w)) /\
  (HasBreakpoint (currentNode c) (im w) = true -> interrupted (im w) = false ->
   marshal nil_value = inl db -> marshal (cstate c) = inl sb ->
   on_wait ctl (on_interrupt ctl (env w)
     {| NodeName := currentNode c; InfoData := db; InfoState := sb |}) = (e1, ops, DoResume r) ->
   exists w', loop_body END ctl g c w =
       (Return zero (Some (ErrNodeNotFound (currentNode c))), w') /\
     log w' = log w ++ [IInterrupt {| NodeName := currentNode c; InfoData := db; InfoState := sb |}]).
Proof.
  intros Hlt Hne Hnd. unfold loop_body, bind, ret.
  replace (Z.leb (recursionLimit g) (steps c)) with false by (symmetry; apply Z.leb_gt; lia).
  destruct (String.eqb_spec (currentNode c) END); [contradiction|].
  split.
  - intros Hb. rewrite (check_breakpoint_miss ctl _ _ w Hb), Hnd. reflexivity.
  - intros Hb Hi Hd Hs Hw.
    destruct (check_breakpoint_hit ctl (currentNode c) (cstate c) w db sb e1 ops r Hb Hi Hd Hs Hw)
      as (w1 & Hc & Hl & _).
    rewrite Hc, Hnd. eexists; split; [reflexivity|exact Hl].
Qed.

(** X15: a step function that fails with an error that is not an
    [InterruptError] stops the run with [ErrInNode] wrapping that error,
    whether or not the node has a breakpoint (the visit passed the
    breakpoint check with state [x]): after the start event and the call
    on [x], nothing is sent (no end event, no update) and no router runs. *)
Theorem node_error_stops END ctl g c w nd x w1 e2 s' msg :
  steps c < recursionLimit g -> currentNode c <> END ->
  nodes g !! currentNode c = Some nd ->
  check_breakpoint ctl (currentNode c) (cstate c) w = (inl x, w1) ->
  Function nd (env w1) x = (e2, (s', Some (OtherError msg))) ->
  loop_body END ctl g c w =
    (Return zero (Some (ErrInNode (currentNode c) (OtherError msg))),
     set_env e2 (append_log w1
       (event_item (streamModes g) (node_event EventChainStart (currentNode c) (steps c))
        ++ [ICallNode (currentNode c) x]))).
Proof.
  intros Hlt Hne Hnd Hc Hf.
  rewrite (visit_eq END ctl g c w nd x w1 Hlt Hne Hnd Hc), Hf.
  reflexivity.
Qed.

Lemma route_hit es pre e post cur s w e1 n0 (rest : list string) :
  es = pre ++ e :: post -> Forall (fun e' => From e' <> cur) pre -> From e = cur ->
  Router e (env w) s = (e1, (n0 :: rest, None)) ->
  route es cur s w =
    (Some (inl (translate (Mapping e) n0)),
     {| env := e1; im := im w; log := log w ++ [ICallRouter cur s] |}).
Proof.
  intros -> Hpre Hfrom Hrouter.
  induction Hpre as [|e' pre Hne Hpre IH]; simpl.
  - rewrite Hfrom, String.eqb_refl. unfold bind. simpl.
    rewrite Hrouter. simpl. rewrite apply_mapping_translate. reflexivity.
  - destruct (String.eqb_spec (From e') cur); [contradiction|]. exact IH.
Qed.

Lemma loop_body_step END ctl g c w nd e2 s' pre ed post e3 n0 rest :
  steps c < recursionLimit g -> currentNode c <> END ->
  nodes g !! currentNode c = Some nd ->
  HasBreakpoint (currentNode c) (im w) = false ->
  Function nd (env w) (cstate c) = (e2, (s', None)) ->
  edges g = pre ++ ed :: post -> Forall (fun e' => From e' <> currentNode c) pre ->
  From ed = currentNode c ->
  Router ed e2 s' = (e3, (n0 :: rest, None)) ->
  loop_body END ctl g c w =
    (Continue {| currentNode := translate (Mapping ed) n0; steps := steps c + 1; cstate := s' |},
     {| env := e3; im := im w;
        log := log w ++
          event_item (streamModes g) (node_event EventChainStart (currentNode c) (steps c)) ++
          [ICallNode (currentNode c) (cstate c)] ++
          event_item (streamModes g) (node_event EventChainEnd (currentNode c) (steps c)) ++
          update_item (streamModes g) s' ++ [ICallRouter (currentNode c) s'] |}).
Proof.
  intros Hlt Hne Hnd Hb Hf Hes Hpre Hfrom Hr.
  rewrite (visit_eq END ctl g c w nd (cstate c) w Hlt Hne Hnd (check_breakpoint_miss ctl _ _ w Hb)), Hf.
  unfold after_call, bind, ret. emits.
  erewrite route_hit; [| exact Hes | exact Hpre | exact Hfrom | exact Hr].
  unfold append_log, set_env. cbn [log env im]. rewrite <- !app_assoc. reflexivity.
Qed.

(** X16: one successful iteration (no breakpoint, the step function and
    the first matching router succeed): start event, the call on the
    current state, end event, the update with the node's new state, the
    router called on that new state; then the loop continues at the
    translated first name with [steps + 1] and the new state. *)
Theorem loop_body_success END ctl g c w nd e2 s' pre ed post e3 n0 rest :
  steps c < recursionLimit g -> currentNode c <> END ->
  nodes g !! currentNode c = Some nd ->
  HasBreakpoint (currentNode c) (im w) = false ->
  Function nd (env w) (cstate c) = (e2, (s', None)) ->
  edges g = pre ++ ed :: post -> Forall (fun e' => From e' <> currentNode c) pre ->
  From ed = currentNode c ->
  Router ed e2 s' = (e3, (n0 :: rest, None)) ->
  loop_body END ctl g c w =
    (Continue {| currentNode := translate (Mapping ed) n0; steps := steps c + 1; cstate := s' |},
     {| env := e3; im := im w;
        log := log w ++
          event_item (streamModes g) (node_event EventChainStart (currentNode c) (steps c)) ++
          [ICallNode (currentNode c) (cstate c)] ++
          event_item (streamModes g) (node_event EventChainEnd (currentNode c) (steps c)) ++
          update_item (streamModes g) s' ++ [ICallRouter (currentNode c) s'] |}).
Proof. apply loop_body_step. Qed.

Lemma self_loop_run END ctl g a nd pre ed post (n : nat) :
  a <> END -> nodes g !! a = Some nd ->
  (forall e x, exists e' x', Function nd e x = (e', (x', None))) ->
  edges g = pre ++ ed :: post -> Forall (fun e' => From e' <> a) pre -> From ed = a ->
  (forall e x, exists e' n0 rest, Router ed e x = (e', (n0 :: rest, None)) /\
                                translate (Mapping ed) n0 = a) ->
  forall fuel k x w, k + Z.of_nat n = recursionLimit g -> (n < fuel)%nat ->
  HasBreakpoint a (im w) = false ->
  exists w', run_loop END ctl g fuel {| currentNode := a; steps := k; cstate := x |} w =
      (LReturn zero (Some (ErrRecursionLimit (recursionLimit g))), w') /\
    exists l, log w' = log w ++ l /\
      count_items is_node_call l = n /\ count_items is_router_call l = n.
Proof.
  intros Hne Hnd Hf Hes Hpre Hfrom Hr.
  induction n as [|n IH]; intros fuel k x w Hk Hfuel Hb;
    (destruct fuel as [|fuel]; [lia|]); simpl; unfold bind, ret.
  - unfold loop_body, ret. simpl.
    replace (Z.leb (recursionLimit g) k) with true by (symmetry; apply Z.leb_le; lia).
    eexists. split; [reflexivity|]. exists []. rewrite app_nil_r. auto.
  - destruct (Hf (env w) x) as (e2 & x' & Hfx).
    destruct (Hr e2 x') as (e3 & n0 & rest & Hrx & Htr).
    rewrite (loop_body_step END ctl g {| currentNode := a; steps := k; cstate := x |} w nd e2 x'
               pre ed post e3 n0 rest ltac:(simpl; lia) Hne Hnd Hb Hfx Hes
               Hpre Hfrom Hrx).
    rewrite Htr. cbn [currentNode steps cstate].
    destruct (IH fuel (k + 1) x'
                {| env := e3; im := im w; log := log w ++
                   event_item (streamModes g) (node_event EventChainStart a k) ++
                   [ICallNode a x] ++ event_item (streamModes g) (node_event EventChainEnd a k) ++
                   update_item (streamModes g) x' ++ [ICallRouter a x'] |}
                ltac:(lia) ltac:(lia) Hb) as (w' & Hrun & l & Hl & Hn1 & Hn2).
    exists w'. split; [exact Hrun|].
    pose proof (count_nodes_quiet (streamModes g) (node_event EventChainStart a k) x') as (Hq1 & _ & Hq3).
    pose proof (count_nodes_quiet (streamModes g) (node_event EventChainEnd a k) x') as (Hq2 & _ & _).
    pose proof (count_routers_quiet (streamModes g) (node_event EventChainStart a k) x') as (Hr1 & _ & Hr3).
    pose proof (count_routers_quiet (streamModes g) (node_event EventChainEnd a k) x') as (Hr2 & _ & _).
    eexists. split.
    { rewrite Hl. cbn [log]. rewrite <- !app_assoc. reflexivity. }
    rewrite !count_items_app, Hq1, Hq2, Hq3, Hr1, Hr2, Hr3, Hn1, Hn2. simpl. lia.
Qed.

(** X17: take an entry node [a] without a breakpoint whose step function
    never fails, and whose router (on the first edge from [a], wherever it
    sits among the edges) never fails and always returns a non-empty list
    whose first name, after the edge's mapping, is [a] again. Then [a] runs
    exactly [recursionLimit] times (its router as often) and [Invoke]
    fails with the recursion-limit error. *)
Theorem self_loop_recursion_limit END ctl g a nd pre ed post fuel s w :
  entryPoint g = a -> a <> END -> nodes g !! a = Some nd ->
  (forall e x, exists e' x', Function nd e x = (e', (x', None))) ->
  edges g = pre ++ ed :: post -> Forall (fun e' => From e' <> a) pre -> From ed = a ->
  (forall e x, exists e' n0 rest, Router ed e x = (e', (n0 :: rest, None)) /\
                                translate (Mapping ed) n0 = a) ->
  HasBreakpoint a (im w) = false ->
  0 <= recursionLimit g -> (Z.to_nat (recursionLimit g) < fuel)%nat ->
  exists w', Invoke END ctl g fuel s w =
      (Returned zero (Some (ErrRecursionLimit (recursionLimit g))), w') /\
    exists l, log w' = log w ++ l /\
      count_items is_node_call l = Z.to_nat (recursionLimit g) /\
      count_items is_router_call l = Z.to_nat (recursionLimit g).
Proof.
  intros Hentry Hne Hnd Hf Hes Hpre Hfrom Hr Hb Hpos Hfuel.
  unfold Invoke, bind, ret. emits. rewrite Hentry.
  destruct (self_loop_run END ctl g a nd pre ed post (Z.to_nat (recursionLimit g))
              Hne Hnd Hf Hes Hpre Hfrom Hr fuel 0 s
              (append_log (append_log w (values_item (streamModes g) s))
                 (event_item (streamModes g) (graph_event EventChainStart)))
              ltac:(lia) Hfuel Hb) as (w' & Hrun & l & Hl & Hn1 & Hn2).
  rewrite Hrun. exists w'. split; [reflexivity|].
  pose proof (count_nodes_quiet (streamModes g) (graph_event EventChainStart) s) as (Hq1 & Hq2 & _).
  pose proof (count_routers_quiet (streamModes g) (graph_event EventChainStart) s) as (Hr1 & Hr2 & _).
  eexists. split.
  { rewrite Hl. cbn [log append_log]. rewrite <- !app_assoc. reflexivity. }
  rewrite !count_items_app, Hq1, Hq2, Hr1, Hr2, Hn1, Hn2. split; reflexivity.
Qed.

Lemma route_miss es cur s w :
  Forall (fun e' => From e' <> cur) es -> route es cur s w = (None, w).
Proof.
  intros Hall. induction Hall as [|e' es' Hne _ IH]; simpl; [reflexivity|].
  destruct (String.eqb_spec (From e') cur); [contradiction|exact IH].
Qed.

(** X18: a node that succeeds but has no outgoing edge ends the run with
    [ErrNoOutgoingEdge], whether or not it has a breakpoint (the visit
    passed the breakpoint check with state [x]); its end event and its
    update are sent first, and no router is called. *)
Theorem no_outgoing_edge END ctl g c w nd x w1 e2 s' :
  steps c < recursionLimit g -> currentNode c <> END ->
  nodes g !! currentNode c = Some nd ->
  check_breakpoint ctl (currentNode c) (cstate c) w = (inl x, w1) ->
  Function nd (env w1) x = (e2, (s', None)) ->
  Forall (fun e' => From e' <> currentNode c) (edges g) ->
  loop_body END ctl g c w =
    (Return zero (Some (ErrNoOutgoingEdge (currentNode c))),
     set_env e2 (append_log w1
       (event_item (streamModes g) (node_event EventChainStart (currentNode c) (steps c)) ++
        [ICallNode (currentNode c) x] ++
        event_item (streamModes g) (node_event EventChainEnd (currentNode c) (steps c)) ++
        update_item (streamModes g) s'))).
Proof.
  intros Hlt Hne Hnd Hc Hf Hno.
  rewrite (visit_eq END ctl g c w nd x w1 Hlt Hne Hnd Hc), Hf.
  unfold after_call, bind, ret. emits. rewrite route_miss by exact Hno.
  unfold append_log, set_env. cbn [log env im]. rewrite <- !app_assoc. reflexivity.
Qed.

Lemma Interrupt_sets_flag ctl n (d : Data) s w w' :
  InterruptManager_Interrupt ctl n d s w = (None, w') -> interrupted (im w') = true.
Proof.
  unfold InterruptManager_Interrupt.
  destruct (interrupted (im w)); [discriminate|].
  destruct (marshal d); [destruct (marshal s)|]; intros [= <-]; reflexivity.
Qed.

Lemma Wait_not_blocked ctl w w' :
  interrupted (im w) = true -> WaitForResume (Data := Data) ctl w <> (WBlocked, w').
Proof.
  intros Hi. unfold WaitForResume. destruct (on_wait ctl (env w)) as [[e1 ops] act].
  destruct act as [s|msg]; [|discriminate].
  unfold InterruptManager_Resume. cbn [im set_im set_env]. rewrite fold_bp_interrupted, Hi.
  discriminate.
Qed.

Lemma loop_body_not_stuck END ctl g c w w' : loop_body END ctl g c w <> (Stuck, w').
Proof.
  unfold loop_body, bind, ret.
  destruct (Z.leb _ _); [discriminate|].
  destruct (String.eqb _ _); [discriminate|].
  destruct (check_breakpoint _ _ _ _) as [[x|o'] w1] eqn:Hc.
  - destruct (nodes g !! _) as [nd|]; [|discriminate].
    rewrite EmitEvent_eq. unfold call_node, bind. rewrite send_eq. cbn [fst snd].
    destruct (Function nd _ _) as [e1 [st1 [err|]]]; unfold after_call, bind, ret.
    + destruct (IsInterruptError err); [|discriminate].
      destruct (GetInterruptData err) as [data ?].
      destruct (InterruptManager_Interrupt _ _ _ _ _) as [[ierr|] w3] eqn:Hi; [discriminate|].
      apply Interrupt_sets_flag in Hi.
      destruct (WaitForResume _ _) as [[r'|err'|] w4] eqn:Hw; try discriminate.
      exfalso. exact (Wait_not_blocked ctl w3 w4 Hi Hw).
    + emits. destruct (route _ _ _ _) as [[[next|err']|] w3]; discriminate.
  - unfold check_breakpoint in Hc. destruct (HasBreakpoint _ _); [|discriminate].
    destruct (InterruptManager_Interrupt _ _ _ _ _) as [[ierr|] w2] eqn:Hi.
    { injection Hc as <- <-. discriminate. }
    apply Interrupt_sets_flag in Hi.
    destruct (WaitForResume _ _) as [[r|err|] w3] eqn:Hw; [discriminate| |];
      injection Hc as <- <-; [discriminate|].
    exfalso. exact (Wait_not_blocked ctl w2 w3 Hi Hw).
Qed.

(** X19: [Resume] never refuses the resume of an interrupt the engine
    raised (the reader's breakpoint changes keep the flag set), so a run
    of [Invoke] is never left blocked on the resume channel. *)
Theorem Invoke_never_blocked END ctl g fuel s w w' :
  Invoke END ctl g fuel s w <> (Blocked, w').
Proof.
  unfold Invoke, bind, ret. emits.
  assert (Hrun : forall fuel c w1 w2, run_loop END ctl g fuel c w1 <> (LStuck, w2)).
  { clear. induction fuel as [|fuel IH]; intros c w1 w2; simpl; unfold bind, ret; [discriminate|].
    destruct (loop_body END ctl g c w1) as [o w3] eqn:Hb.
    destruct o; try discriminate; [apply IH|].
    intros [= <-]. exact (loop_body_not_stuck END ctl g c w1 w3 Hb). }
  destruct (run_loop END ctl g fuel _ _) as [r1 w1] eqn:Hr.
  destruct r1; emits; try discriminate.
  intros [= <-]. exact (Hrun fuel _ _ _ Hr).
Qed.

End Properties.

Ltac emits :=
  repeat first [ rewrite EmitValue_eq | rewrite EmitEvent_eq | rewrite EmitUpdate_eq
               | rewrite send_eq ]; cbn [fst snd].

Module CalcFacts.
Import Calc.

(** C1 (code_bug): a step function that interrupts through the [Interrupt]
    helper returns the zero state, and [state, err = node.Function(ctx,
    state)] has already overwritten [state] when the interrupt is raised:
    the [InterruptInfo] carries the marshalled zero state, not the state
    the step function was given. *)
Theorem interrupt_info_state_is_returned_state :
  match log (snd (loop_body END (resume_with {| Result := 7 |}) g_ask
                    {| currentNode := "ask"; steps := 0; cstate := {| Result := 3 |} |} w0)) with
  | [ICallNode _ input; IInterrupt info] =>
      inl (InfoState info) = marshal (zero : CalcState) /\
      inl (InfoState info) <> marshal input
  | _ => False
  end.
Proof. vm_compute. split; [reflexivity|discriminate]. Qed.

(** C6 (code_bug): [Interrupt] sets [interrupted] before marshalling; a
    marshalling failure returns the error with the flag left [true], and
    every later [Interrupt] then fails with "already interrupted". *)
Theorem marshal_failure_keeps_interrupted_flag :
  let ctl := resume_with {| Result := 7 |} in
  let '(r, w') := InterruptManager_Interrupt ctl "ask" VChan {| Result := 3 |} w0 in
  interrupted (im w0) = false /\
  r = Some (OtherError "json: unsupported type: chan int") /\
  interrupted (im w') = true /\
  fst (InterruptManager_Interrupt ctl "ask" VNil {| Result := 3 |} w') =
    Some (OtherError "already interrupted").
Proof. vm_compute. split; [|split; [|split]]; reflexivity. Qed.

(** C8: Scenario A. With [StreamValues] and [StreamUpdates] active (and no
    breakpoint on [calc]), [Invoke] returns a state [r] with [Result = 55]
    and sends exactly two [StreamValues] events, carrying the initial state
    [s] and then the final state [r], and one [StreamUpdates] event,
    carrying [r]. *)
Theorem scenarioA_invoke END modes (ctl : Ctl) fuel s (w : W) :
  "calc" <> END -> hasMode modes StreamValues = true -> hasMode modes StreamUpdates = true ->
  HasBreakpoint "calc" (im w) = false ->
  Compile (scenarioA END modes) = inl (scenarioA END modes) /\
  exists r new, Invoke END ctl (scenarioA END modes) (S (S fuel)) s w =
      (Returned r None, append_log w new) /\
    Result r = 55 /\ count_mode StreamValues new = 2%nat /\ count_mode StreamUpdates new = 1%nat /\
    stream_data StreamValues new = [s; r] /\ stream_data StreamUpdates new = [r].
Proof.
  intros Hne Hv Hu Hb. split; [reflexivity|].
  unfold Invoke, bind, ret. emits. cbn [run_loop]. unfold bind.
  replace (entryPoint (scenarioA END modes)) with "calc" by reflexivity.
  set (w1 := append_log (append_log w _) _).
  rewrite (visit_eq END ctl (scenarioA END modes)
             {| currentNode := "calc"; steps := 0; cstate := s |} w1
             {| NodeName_ := "calc"; Function := calc_fn |} s w1); cycle 1.
  { simpl; lia. }
  { exact Hne. }
  { reflexivity. }
  { apply check_breakpoint_miss. exact Hb. }
  cbn -[append_log]. unfold bind, ret. emits.
  unfold loop_body at 1, ret. cbn -[append_log].
  rewrite String.eqb_refl. change (25 <=? 0 + 1) with false. cbn -[append_log]. emits.
  exists {| Result := 55 |}.
  exists (values_item modes s ++ event_item modes (graph_event EventChainStart) ++
          event_item modes (node_event EventChainStart "calc" 0) ++ [ICallNode "calc" s] ++
          event_item modes (node_event EventChainEnd "calc" 0) ++
          update_item modes {| Result := 55 |} ++ [ICallRouter "calc" {| Result := 55 |}] ++
          values_item modes {| Result := 55 |} ++ event_item modes (graph_event EventChainEnd)).
  split.
  - subst w1. unfold append_log, set_env. cbn. rewrite <- !app_assoc. reflexivity.
  - split; [reflexivity|].
    unfold values_item, update_item, event_item. rewrite Hv, Hu.
    destruct (hasMode modes StreamDebug); repeat split; reflexivity.
Qed.

Lemma scenarioA_invoke_witness :
  Compile (scenarioA END [StreamValues; StreamUpdates]) =
    inl (scenarioA END [StreamValues; StreamUpdates]) /\
  exists r new, Invoke END (resume_with zero) (scenarioA END [StreamValues; StreamUpdates])
      2 {| Result := 0 |} w0 = (Returned r None, append_log w0 new) /\
    Result r = 55 /\ count_mode StreamValues new = 2%nat /\ count_mode StreamUpdates new = 1%nat /\
    stream_data StreamValues new = [{| Result := 0 |}; r] /\ stream_data StreamUpdates new = [r].
Proof.
  apply scenarioA_invoke; [discriminate | reflexivity | reflexivity | vm_compute; reflexivity].
Defined.

(** C10: with the [StreamValues] mode inactive, a graph whose entry point
    is [END] returns its input but sends no [StreamValues] event. *)
Lemma entry_END_without_values_mode :
  let '(r, w') := Invoke END (resume_with zero) g_end_quiet 1 {| Result := 3 |} w0 in
  r = Returned {| Result := 3 |} None /\ count_mode StreamValues (log w') = 0%nat.
Proof. vm_compute. split; reflexivity. Qed.

Lemma Invoke_entry_END_witness :
  entryPoint g_end = END /\ 0 < recursionLimit g_end /\
  Invoke END (resume_with zero) g_end 1 {| Result := 3 |} w0 =
    (Returned {| Result := 3 |} None,
     append_log w0 (values_item (streamModes g_end) {| Result := 3 |} ++
                    event_item (streamModes g_end) (graph_event EventChainStart) ++
                    values_item (streamModes g_end) {| Result := 3 |} ++
                    event_item (streamModes g_end) (graph_event EventChainEnd))).
Proof.
  split; [reflexivity|]. split; [vm_compute; reflexivity|].
  apply Invoke_entry_END; [reflexivity | vm_compute; reflexivity].
Defined.

Lemma recursion_limit_first_witness :
  recursionLimit g_zero_limit <= 0 /\
  exists new, Invoke END (resume_with zero) g_zero_limit 1 {| Result := 3 |} w0 =
    (Returned zero (Some (ErrRecursionLimit (recursionLimit g_zero_limit))), append_log w0 new) /\
    Forall (fun i => is_call i = false) new.
Proof.
  assert (Hle : recursionLimit g_zero_limit <= 0) by (cbn; lia).
  split; [exact Hle|].
  exact (proj2 (recursion_limit_first END (resume_with zero) g_zero_limit) Hle 0%nat _ w0).
Defined.

Lemma route_first_match_witness :
  apply_mapping (Mapping edge_a1) ["x"; "z"] = map (translate (Mapping edge_a1)) ["x"; "z"] /\
  route [edge_b; edge_a1; edge_a2] "a" {| Result := 3 |} w0 =
    (Some (inl (translate (Mapping edge_a1) "x")),
     {| env := env w0; im := im w0; log := log w0 ++ [ICallRouter "a" {| Result := 3 |}] |}).
Proof.
  apply (route_first_match [edge_b; edge_a1; edge_a2] [edge_b] [edge_a2] edge_a1 "a"
           {| Result := 3 |} w0 0%nat "x" ["z"]).
  - reflexivity.
  - constructor; [cbn; discriminate | constructor].
  - reflexivity.
  - reflexivity.
Defined.

Example route_first_match_value :
  fst (route [edge_b; edge_a1; edge_a2] "a" {| Result := 3 |} w0) = Some (inl "y").
Proof. vm_compute. reflexivity. Qed.

Lemma interrupt_retries_node_witness :
  exists w', loop_body END (resume_with {| Result := 7 |}) g_approve
      {| currentNode := "ask"; steps := 0; cstate := {| Result := 3 |} |} w0 =
      (Continue {| currentNode := "ask"; steps := 0; cstate := {| Result := 7 |} |}, w') /\
    (HasBreakpoint "ask" (im w') = false ->
       exists o w'' pre post,
         loop_body END (resume_with {| Result := 7 |}) g_approve
           {| currentNode := "ask"; steps := 0; cstate := {| Result := 7 |} |} w' = (o, w'') /\
         log w'' = log w' ++ pre ++ ICallNode "ask" {| Result := 7 |} :: post /\
         Forall (fun i => is_call i = false) pre).
Proof.
  apply (interrupt_retries_node END (resume_with {| Result := 7 |}) g_approve
           {| currentNode := "ask"; steps := 0; cstate := {| Result := 3 |} |} w0 approve_node
           {| Result := 3 |} w0 1%nat zero (VString "approve")
           (json (marshal (VString "approve"))) (json (marshal (zero : CalcState)))
           1%nat [] {| Result := 7 |}).
  - vm_compute; reflexivity.
  - cbn; discriminate.
  - reflexivity.
  - vm_compute; reflexivity.
  - reflexivity.
  - reflexivity.
  - vm_compute; reflexivity.
  - vm_compute; reflexivity.
  - reflexivity.
Defined.

Lemma breakpoint_visit_witness :
  exists o w' pre post,
    loop_body END (resume_with {| Result := 7 |}) g_approve
      {| currentNode := "ask"; steps := 0; cstate := {| Result := 3 |} |} w_bp = (o, w') /\
    log w' = log w_bp ++
      IInterrupt {| NodeName := "ask"; InfoData := json (marshal VNil);
                    InfoState := json (marshal ({| Result := 3 |} : CalcState)) |}
      :: pre ++ ICallNode "ask" {| Result := 7 |} :: post /\
    Forall (fun i => is_interrupt i = false /\ is_call i = false) pre.
Proof.
  apply (proj1 (breakpoint_visit END (resume_with {| Result := 7 |}) g_approve
                  {| currentNode := "ask"; steps := 0; cstate := {| Result := 3 |} |} w_bp
                  approve_node ltac:(vm_compute; reflexivity) ltac:(cbn; discriminate)
                  ltac:(reflexivity))
           _ _ 0%nat [] {| Result := 7 |}).
  - vm_compute; reflexivity.
  - reflexivity.
  - vm_compute; reflexivity.
  - vm_compute; reflexivity.
  - reflexivity.
Defined.

Lemma Invoke_fatal_returns_zero_witness :
  Invoke END (resume_with zero) g_missing 1 {| Result := 3 |} w0 =
    (Returned zero (Some (ErrNodeNotFound "x")),
     append_log w0 [IStream {| Mode := StreamValues; SData := {| Result := 3 |} |}]) /\
  (zero : CalcState) = zero.
Proof.
  assert (H1 : Invoke END (resume_with zero) g_missing 1 {| Result := 3 |} w0 =
    (Returned zero (Some (ErrNodeNotFound "x")),
     append_log w0 [IStream {| Mode := StreamValues; SData := {| Result := 3 |} |}]))
    by (vm_compute; reflexivity).
  split; [exact H1|].
  exact (proj2 (Invoke_fatal_returns_zero END (resume_with zero) g_missing) 1%nat _ w0 _ _ _ H1).
Defined.

End CalcFacts.

Module ExtraFacts.
Import Calc.

Lemma AddConditionalEdges_shadowed_witness :
  route (edges (AddConditionalEdges g_approve "ask" self_router None)) "ask" {| Result := 3 |} w0 =
  route (edges g_approve) "ask" {| Result := 3 |} w0.
Proof.
  apply AddConditionalEdges_shadowed. left. cbn. constructor. reflexivity.
Defined.

Lemma route_errors_witness :
  route [edge_b; edge_err] "a" {| Result := 3 |} w0 =
    (Some (inr (ErrInRouter "a" (OtherError "bad"))),
     {| env := 0%nat; im := im w0; log := log w0 ++ [ICallRouter "a" {| Result := 3 |}] |}).
Proof.
  destruct (route_errors [edge_b; edge_err] [edge_b] edge_err [] "a" {| Result := 3 |} w0
              0%nat [] (OtherError "bad")) as (_ & H2 & _).
  apply H2; [reflexivity | constructor; [cbn; discriminate | constructor] | reflexivity | reflexivity].
Defined.

Lemma cancelled_wait_stays_interrupted_witness :
  exists w', loop_body END cancel_ctl g_approve
      {| currentNode := "ask"; steps := 0; cstate := {| Result := 3 |} |} w_bp =
      (Return zero (Some (ErrWaitingForResume (OtherError "context canceled"))), w') /\
    interrupted (im w') = true.
Proof.
  destruct (cancelled_wait_stays_interrupted END cancel_ctl g_approve
              {| currentNode := "ask"; steps := 0; cstate := {| Result := 3 |} |} w_bp
              (json (marshal VNil)) (json (marshal ({| Result := 3 |} : CalcState)))
              0%nat [] "context canceled"
              ltac:(vm_compute; reflexivity) ltac:(cbn; discriminate) ltac:(vm_compute; reflexivity))
    as [H1 _].
  destruct (H1 eq_refl ltac:(vm_compute; reflexivity) ltac:(vm_compute; reflexivity) eq_refl)
    as (w' & Hl & _ & Hi).
  exists w'. split; assumption.
Defined.

Lemma Invoke_stream_gated_witness :
  exists l, log (snd (Invoke END (resume_with zero) (scenarioA END [StreamUpdates]) 3
                        {| Result := 3 |} w0)) = log w0 ++ l /\
    Forall (fun i => stream_gated [StreamUpdates] i = true) l.
Proof.
  exact (Invoke_stream_gated END (resume_with zero) (scenarioA END [StreamUpdates]) 3
           {| Result := 3 |} w0 _ _ (surjective_pairing _)).
Defined.

Lemma Invoke_keeps_breakpoints_witness :
  breakpoints (im (snd (Invoke END (resume_with {| Result := 7 |}) g_approve 3
                          {| Result := 3 |} w_bp))) = breakpoints (im w_bp).
Proof.
  apply (Invoke_keeps_breakpoints END (resume_with {| Result := 7 |}) g_approve 3
           {| Result := 3 |} w_bp _ _ (fun e => eq_refl) (surjective_pairing _)).
Defined.

Lemma Invoke_success_not_interrupted_witness :
  interrupted (im (snd (Invoke END (resume_with {| Result := 7 |}) g_approve 3
                          {| Result := 3 |} w0))) = false.
Proof.
  apply (Invoke_success_not_interrupted END (resume_with {| Result := 7 |}) g_approve 3
           {| Result := 3 |} w0 {| Result := 55 |} _ eq_refl).
  vm_compute. reflexivity.
Defined.

Lemma Invoke_router_calls_bounded_witness :
  exists l, log (snd (Invoke END (resume_with zero) g_self 5 {| Result := 3 |} w0)) = log w0 ++ l /\
    Z.of_nat (count_items is_router_call l) <= Z.max 0 (recursionLimit g_self).
Proof.
  exact (Invoke_router_calls_bounded END (resume_with zero) g_self 5 {| Result := 3 |} w0 _ _
           (surjective_pairing _)).
Defined.

Lemma missing_node_not_found_witness :
  loop_body END (resume_with zero) g_missing
    {| currentNode := "x"; steps := 0; cstate := {| Result := 3 |} |} w0 =
    (Return zero (Some (ErrNodeNotFound "x")), w0).
Proof.
  destruct (missing_node_not_found END (resume_with zero) g_missing
              {| currentNode := "x"; steps := 0; cstate := {| Result := 3 |} |} w0
              [] [] 0%nat [] zero
              ltac:(vm_compute; reflexivity) ltac:(cbn; discriminate) ltac:(vm_compute; reflexivity))
    as [H1 _].
  apply H1. vm_compute. reflexivity.
Defined.

Lemma node_error_stops_witness :
  fst (loop_body END (resume_with {| Result := 7 |}) g_fail
         {| currentNode := "calc"; steps := 0; cstate := {| Result := 3 |} |} w_bp_calc) =
    Return zero (Some (ErrInNode "calc" (OtherError "boom"))).
Proof.
  rewrite (node_error_stops END (resume_with {| Result := 7 |}) g_fail
             {| currentNode := "calc"; steps := 0; cstate := {| Result := 3 |} |} w_bp_calc
             {| NodeName_ := "calc"; Function := fail_fn |} {| Result := 7 |}
             (snd (check_breakpoint (resume_with {| Result := 7 |}) "calc" {| Result := 3 |} w_bp_calc))
             0%nat {| Result := 0 |} "boom"
             ltac:(vm_compute; reflexivity) ltac:(cbn; discriminate) ltac:(vm_compute; reflexivity)
             ltac:(vm_compute; reflexivity) ltac:(vm_compute; reflexivity)).
  reflexivity.
Defined.

Lemma loop_body_success_witness :
  fst (loop_body END (resume_with zero) (scenarioA END [StreamUpdates])
         {| currentNode := "calc"; steps := 0; cstate := {| Result := 3 |} |} w0) =
    Continue {| currentNode := END; steps := 1; cstate := {| Result := 55 |} |}.
Proof.
  rewrite (loop_body_success END (resume_with zero) (scenarioA END [StreamUpdates])
             {| currentNode := "calc"; steps := 0; cstate := {| Result := 3 |} |} w0
             {| NodeName_ := "calc"; Function := calc_fn |} 0%nat {| Result := 55 |}
             [] {| From := "calc"; Router := to_end END; Mapping := None |} [] 0%nat END []
             ltac:(vm_compute; reflexivity) ltac:(cbn; discriminate) ltac:(vm_compute; reflexivity)
             ltac:(vm_compute; reflexivity) eq_refl eq_refl (List.Forall_nil _) eq_refl eq_refl).
  reflexivity.
Defined.

Lemma self_loop_recursion_limit_witness :
  exists w', Invoke END (resume_with zero) g_self_mapped 4 {| Result := 3 |} w0 =
      (Returned zero (Some (ErrRecursionLimit (recursionLimit g_self_mapped))), w') /\
    exists l, log w' = log w0 ++ l /\
      count_items is_node_call l = Z.to_nat (recursionLimit g_self_mapped) /\
      count_items is_router_call l = Z.to_nat (recursionLimit g_self_mapped).
Proof.
  apply (self_loop_recursion_limit END (resume_with zero) g_self_mapped "calc"
           {| NodeName_ := "calc"; Function := calc_fn |} [edge_b] edge_self_mapped []).
  - reflexivity.
  - cbn; discriminate.
  - vm_compute; reflexivity.
  - intros e x. exists e, {| Result := 55 |}. reflexivity.
  - reflexivity.
  - constructor; [cbn; discriminate | constructor].
  - reflexivity.
  - intros e x. exists e, "again", ["other"]. split; [reflexivity | vm_compute; reflexivity].
  - vm_compute; reflexivity.
  - cbn; lia.
  - cbn; lia.
Defined.

Lemma no_outgoing_edge_witness :
  fst (loop_body END (resume_with {| Result := 7 |}) g_noedge
         {| currentNode := "calc"; steps := 0; cstate := {| Result := 3 |} |} w_bp_calc) =
    Return zero (Some (ErrNoOutgoingEdge "calc")).
Proof.
  rewrite (no_outgoing_edge END (resume_with {| Result := 7 |}) g_noedge
             {| currentNode := "calc"; steps := 0; cstate := {| Result := 3 |} |} w_bp_calc
             {| NodeName_ := "calc"; Function := calc_fn |} {| Result := 7 |}
             (snd (check_breakpoint (resume_with {| Result := 7 |}) "calc" {| Result := 3 |} w_bp_calc))
             0%nat {| Result := 55 |}
             ltac:(vm_compute; reflexivity) ltac:(cbn; discriminate) ltac:(vm_compute; reflexivity)
             ltac:(vm_compute; reflexivity) ltac:(vm_compute; reflexivity) (List.Forall_nil _)).
  reflexivity.
Defined.

End ExtraFacts.
